(** * bam_slice: interval merging, gap filling and position mapping

    A shallow embedding of the core functions of [bam_slice/bam_slice.py]
    together with the properties stated about them:

    - [merge_overlap_intervals], [outside_interval], [extend_interval]
      (the sweep that merges padded intervals);
    - [handle_nones] (the forward pass that fills absent trace components);
    - [ref_interval_indexes], [get_subsequence_indexes] (the binary-search
      resolution of a reference interval into a read index range);
    - [dump_interval_fastq], [append_fastq] (the record written for a read
      and an interval), [get_filename_prefix], and the steps of [main] that
      pad the positions into intervals and cut the merged intervals into
      batches.

    The Python functions are embedded twice where Python's dynamic behaviour
    matters.  Module [Py] follows the interpreter: intervals are mutable list
    objects in a store, subscripting may raise [IndexError], and trace
    components are Python values that may be [None].  The top level gives the
    same functions over typed values (an interval is a record of two
    integers); the two levels are related by refinement lemmas. *)

From Equations Require Import Equations.
From stdpp Require Import ssreflect base numbers list option sorting gmap.

#[local] Set Warnings "-rewrite-rw".

Local Open Scope Z_scope.

(** ** Intervals as values *)

(** An interval is a two-element list [[start, end]] in the source. *)
Record interval : Type := Interval { istart : Z; iend : Z }.

#[global] Instance interval_eq_dec : EqDecision interval.
Proof. solve_decision. Defined.

(** [return second_interval[0] >= first_interval[1]] *)
Definition outside_interval (first_interval second_interval : interval) : bool :=
  istart second_interval >=? iend first_interval.

(** [interval_to_extend[1] = interval[1]; return interval_to_extend] *)
Definition extend_interval (interval_to_extend interval0 : interval) : interval :=
  {| istart := istart interval_to_extend; iend := iend interval0 |}.

(** The [for] loop of [merge_overlap_intervals], with its two local
    variables [merged_intervals] and [cached_interval] as accumulators; the
    base case is the code after the loop. *)
Fixpoint merge_loop (intervals merged_intervals : list interval)
    (cached_interval : option interval) : list interval :=
  match intervals with
  | [] =>
      match cached_interval with
      | Some cached => merged_intervals ++ [cached]
      | None => merged_intervals
      end
  | interval0 :: rest =>
      match cached_interval with
      | None => merge_loop rest merged_intervals (Some interval0)
      | Some cached =>
          if outside_interval cached interval0
          then merge_loop rest (merged_intervals ++ [cached]) (Some interval0)
          else merge_loop rest merged_intervals
                 (Some (extend_interval cached interval0))
      end
  end.

Definition merge_overlap_intervals (intervals : list interval) : list interval :=
  merge_loop intervals [] None.

(** ** The interpreter-level model *)

Module Py.

(** A reference to a list object. *)
Definition loc := nat.

(** The store of list objects; an interval is the object [[start, end]]. *)
Abbreviation heap := (gmap loc (list Z)).

Inductive exn : Type := IndexError.

(** The result of running a piece of code from a store: a value and the
    store it leaves, or an exception.  [Dangling] is not a Python
    behaviour: it stands for a reference outside the store, which the
    interpreter never hands out. *)
Inductive outcome (A : Type) : Type :=
| Return (a : A) (h : heap)
| Raise (e : exn)
| Dangling.
Arguments Return {A} a h.
Arguments Raise {A} e.
Arguments Dangling {A}.

Definition M (A : Type) : Type := heap → outcome A.

#[global] Instance M_ret : MRet M := λ A a h, Return a h.
#[global] Instance M_bind : MBind M := λ A B k m h,
  match m h with
  | Return a h' => k a h'
  | Raise e => Raise e
  | Dangling => Dangling
  end.

(** [obj[i]] *)
Definition getitem (obj : loc) (i : nat) : M Z := λ h,
  match h !! obj with
  | None => Dangling
  | Some xs =>
      match xs !! i with
      | Some v => Return v h
      | None => Raise IndexError
      end
  end.

(** [obj[i] = v]: the list object is updated in place. *)
Definition setitem (obj : loc) (i : nat) (v : Z) : M unit := λ h,
  match h !! obj with
  | None => Dangling
  | Some xs =>
      if decide (i < length xs)%nat
      then Return () (<[obj := <[i := v]> xs]> h)
      else Raise IndexError
  end.

Definition outside_interval (first_interval second_interval : loc) : M bool :=
  a ← getitem second_interval 0;
  b ← getitem first_interval 1;
  mret (a >=? b).

(** The object passed in is mutated and handed back: no copy is made. *)
Definition extend_interval (interval_to_extend interval0 : loc) : M loc :=
  v ← getitem interval0 1;
  setitem interval_to_extend 1 v;;
  mret interval_to_extend.

Fixpoint merge_loop (intervals merged_intervals : list loc)
    (cached_interval : option loc) : M (list loc) :=
  match intervals with
  | [] =>
      match cached_interval with
      | Some cached => mret (merged_intervals ++ [cached])
      | None => mret merged_intervals
      end
  | interval0 :: rest =>
      match cached_interval with
      | None => merge_loop rest merged_intervals (Some interval0)
      | Some cached =>
          outside ← outside_interval cached interval0;
          if outside : bool
          then merge_loop rest (merged_intervals ++ [cached]) (Some interval0)
          else
            cached' ← extend_interval cached interval0;
            merge_loop rest merged_intervals (Some cached')
      end
  end.

Definition merge_overlap_intervals (intervals : list loc) : M (list loc) :=
  merge_loop intervals [] None.

(** A Python value of the trace: an integer or [None]. *)
Abbreviation value := (option Z).

(** [handle_nones] over untyped values: what is appended is whatever the
    variable holds, so that the absence of [None] in the output is a
    property of the code and not of a type. *)
Fixpoint handle_nones_loop (aligned_pairs : list (value * value))
    (handled_ref_positions handled_read_positions : list value)
    (previous_ref_pos previous_read_pos : value)
    : list value * list value :=
  match aligned_pairs with
  | [] => (handled_read_positions, handled_ref_positions)
  | (read_pos, ref_pos) :: rest =>
      let '(handled_ref_positions, previous_ref_pos) :=
        match ref_pos with
        | None => (handled_ref_positions ++ [previous_ref_pos], previous_ref_pos)
        | Some _ => (handled_ref_positions ++ [ref_pos], ref_pos)
        end in
      let '(handled_read_positions, previous_read_pos) :=
        match read_pos with
        | None => (handled_read_positions ++ [previous_read_pos], previous_read_pos)
        | Some _ => (handled_read_positions ++ [read_pos], read_pos)
        end in
      handle_nones_loop rest handled_ref_positions handled_read_positions
        previous_ref_pos previous_read_pos
  end.

Definition handle_nones (aligned_pairs : list (value * value))
    : list value * list value :=
  handle_nones_loop aligned_pairs [] [] (Some (-1)) (Some (-1)).

End Py.

(** Reading typed intervals out of a store. *)
Definition as_interval (xs : list Z) : option interval :=
  match xs with
  | [a; b] => Some (Interval a b)
  | _ => None
  end.

Definition read_interval (h : Py.heap) (l : Py.loc) : option interval :=
  h !! l ≫= as_interval.

Definition read_intervals (h : Py.heap) (ls : list Py.loc) : option (list interval) :=
  mapM (read_interval h) ls.

(** What a caller observes of a run of [Py.merge_overlap_intervals]: the
    intervals of the returned list, read from the final store. *)
Definition observe (r : Py.outcome (list Py.loc)) : option (list interval) :=
  match r with
  | Py.Return ls h => read_intervals h ls
  | _ => None
  end.

Definition raises {A} (r : Py.outcome A) : bool :=
  match r with
  | Py.Raise _ => true
  | _ => false
  end.

(** ** Gap filling *)

(** [handle_nones] over typed values: the two running "previous" variables
    and the two output lists are the accumulators of the loop.  The result
    is the pair (read positions, reference positions), in that order. *)
Fixpoint handle_nones_loop (aligned_pairs : list (option Z * option Z))
    (handled_ref_positions handled_read_positions : list Z)
    (previous_ref_pos previous_read_pos : Z) : list Z * list Z :=
  match aligned_pairs with
  | [] => (handled_read_positions, handled_ref_positions)
  | (read_pos, ref_pos) :: rest =>
      let '(handled_ref_positions, previous_ref_pos) :=
        match ref_pos with
        | None => (handled_ref_positions ++ [previous_ref_pos], previous_ref_pos)
        | Some ref_pos => (handled_ref_positions ++ [ref_pos], ref_pos)
        end in
      let '(handled_read_positions, previous_read_pos) :=
        match read_pos with
        | None => (handled_read_positions ++ [previous_read_pos], previous_read_pos)
        | Some read_pos => (handled_read_positions ++ [read_pos], read_pos)
        end in
      handle_nones_loop rest handled_ref_positions handled_read_positions
        previous_ref_pos previous_read_pos
  end.

Definition handle_nones (aligned_pairs : list (option Z * option Z))
    : list Z * list Z :=
  handle_nones_loop aligned_pairs [] [] (-1) (-1).

(** ** Position mapping *)

(** [bisect] belongs to Python's standard library; its two functions are
    embedded as the loops they run (called here with the defaults [lo = 0]
    and [hi = len(a)]).  For [bisect_left]:
<<
    while lo < hi:
        mid = (lo + hi) // 2
        if a[mid] < x: lo = mid + 1
        else: hi = mid
    return lo
>>
    and for [bisect_right]:
<<
    while lo < hi:
        mid = (lo + hi) // 2
        if x < a[mid]: hi = mid
        else: lo = mid + 1
    return lo
>>
    [mid] is always a valid index ([lo <= mid < hi <= len(a)]), so the
    branch for a failed lookup is never taken from [bisect_left] and
    [bisect_right] below. *)
Equations? bisect_left_loop (a : list Z) (x : Z) (lo hi : nat) : nat
  by wf (hi - lo)%nat lt :=
  bisect_left_loop a x lo hi with decide (lo < hi)%nat := {
    | right _ := lo
    | left _ with a !! ((lo + hi) / 2)%nat := {
        | None := lo
        | Some v with v <? x := {
            | true := bisect_left_loop a x ((lo + hi) / 2 + 1)%nat hi
            | false := bisect_left_loop a x lo ((lo + hi) / 2)%nat } } }.
Proof.
  all: change (Nat.divmod (lo + hi) 1 0 1).1 with ((lo + hi) / 2)%nat;
    pose proof (Nat.div_mod_eq (lo + hi) 2);
    pose proof (Nat.mod_upper_bound (lo + hi) 2); lia.
Qed.

Equations? bisect_right_loop (a : list Z) (x : Z) (lo hi : nat) : nat
  by wf (hi - lo)%nat lt :=
  bisect_right_loop a x lo hi with decide (lo < hi)%nat := {
    | right _ := lo
    | left _ with a !! ((lo + hi) / 2)%nat := {
        | None := lo
        | Some v with x <? v := {
            | true := bisect_right_loop a x lo ((lo + hi) / 2)%nat
            | false := bisect_right_loop a x ((lo + hi) / 2 + 1)%nat hi } } }.
Proof.
  all: change (Nat.divmod (lo + hi) 1 0 1).1 with ((lo + hi) / 2)%nat;
    pose proof (Nat.div_mod_eq (lo + hi) 2);
    pose proof (Nat.mod_upper_bound (lo + hi) 2); lia.
Qed.

Definition bisect_left (a : list Z) (x : Z) : nat :=
  bisect_left_loop a x 0 (length a).

Definition bisect_right (a : list Z) (x : Z) : nat :=
  bisect_right_loop a x 0 (length a).

(** [start, end = interval;
     return bisect.bisect_left(ref, start), bisect.bisect_right(ref, end)] *)
Definition ref_interval_indexes (interval0 : interval) (ref : list Z) : nat * nat :=
  (bisect_left ref (istart interval0), bisect_right ref (iend interval0)).

(** [xs[i:j]] for non-negative [i] and [j]: the elements at the indexes
    [i <= k < min(j, len(xs))]. *)
Definition slice {A} (xs : list A) (i j : nat) : list A := drop i (take j xs).

(** [None] is Python's [None]; the pair is the returned tuple. *)
Definition get_subsequence_indexes (interval0 : interval)
    (clean_aligned_pairs : list Z * list Z) : option (Z * Z) :=
  let '(read_positions, ref_positions) := clean_aligned_pairs in
  let '(start_index, end_index) := ref_interval_indexes interval0 ref_positions in
  let read_indexes := slice read_positions start_index end_index in
  match read_indexes with
  | [] => None
  | read_start_index :: _ =>
      let read_end_index := List.last read_indexes read_start_index in
      let read_start_index :=
        if read_start_index <? 0 then 0 else read_start_index in
      Some (read_start_index, read_end_index)
  end.

(** ** Vocabulary of the properties *)

(** The points of an interval, under the half-open reading [[start, end)]
    of the data model and under the closed reading [[start, end]] that
    [get_subsequence_indexes] applies to its argument. *)
Definition in_interval (i : interval) (p : Z) : Prop := istart i ≤ p < iend i.
Definition in_interval_closed (i : interval) (p : Z) : Prop := istart i ≤ p ≤ iend i.

(** The union of the points of a list of intervals. *)
Definition covers (X : list interval) (p : Z) : Prop :=
  Exists (λ i, in_interval i p) X.
Definition covers_closed (X : list interval) (p : Z) : Prop :=
  Exists (λ i, in_interval_closed i p) X.

Definition start_le (a b : interval) : Prop := istart a ≤ istart b.
Definition end_le (a b : interval) : Prop := iend a ≤ iend b.

(** Sorted ascending by start: each interval starts no later than the next. *)
Definition sorted_by_start (X : list interval) : Prop := Sorted start_le X.

(** The ends do not decrease along the list (what padding sorted positions
    by a fixed amount produces). *)
Definition ends_nondecreasing (X : list interval) : Prop := Sorted end_le X.

(** [b] starts at or after the end of [a]. *)
Definition separated (a b : interval) : Prop := iend a ≤ istart b.

(** Every pair of neighbours of a list is related by [R]. *)
Definition adjacent_pairs {A} (R : relation A) (l : list A) : Prop :=
  ∀ (i : nat) a b, l !! i = Some a → l !! S i = Some b → R a b.

(** The input has an interval that starts before its predecessor does. *)
Definition out_of_order (X : list interval) : Prop :=
  ∃ (i : nat) a b, X !! i = Some a ∧ X !! S i = Some b ∧ istart b < istart a.

(** One component of a trace filled on its own: an absent entry takes the
    last value seen, [previous] before any was. *)
Fixpoint fill (previous : Z) (column : list (option Z)) : list Z :=
  match column with
  | [] => []
  | None :: rest => previous :: fill previous rest
  | Some v :: rest => v :: fill v rest
  end.

(** The present entries of a component, in trace order. *)
Definition present (column : list (option Z)) : list Z := omap id column.

(** The last present entry of a prefix of a component, or the sentinel
    [-1] if there is none. *)
Definition last_seen (column : list (option Z)) : Z :=
  default (-1) (last (present column)).

(** Non-decreasing apart from a leading run of the sentinel [-1]. *)
Definition nondecreasing_after_sentinels (out : list Z) : Prop :=
  ∃ (k : nat) rest, out = replicate k (-1) ++ rest ∧ Sorted Z.le rest.

(** Some entry of [ref] lies in the closed range [[s, e]]. *)
Definition hits (ref : list Z) (s e : Z) : Prop := Exists (λ v, s ≤ v ≤ e) ref.

(** ** The rest of the pipeline *)

(** *** [main]: from positions to merged intervals *)

(** The loop of [main] that pads every position into an interval:
<<
    for pos in positions:
        start = pos - padding if pos - padding >= 0 else 0
        intervals.append([start, pos + padding])
>> *)
Fixpoint main_intervals_loop (positions : list Z) (padding : Z)
    (intervals : list interval) : list interval :=
  match positions with
  | [] => intervals
  | pos :: rest =>
      let start := if pos - padding >=? 0 then pos - padding else 0 in
      main_intervals_loop rest padding
        (intervals ++ [Interval start (pos + padding)])
  end.

Definition main_intervals (positions : list Z) (padding : Z) : list interval :=
  main_intervals_loop positions padding [].

(** [merged_intervals = merge_overlap_intervals(intervals)] *)
Definition main_merged_intervals (positions : list Z) (padding : Z)
    : list interval :=
  merge_overlap_intervals (main_intervals positions padding).

(** The same two steps in the interpreter: every interval is a list object
    created by the loop. *)
Module PyMain.

(** The list display [[x, y, ...]] creates a new object. *)
Definition new_list (xs : list Z) : Py.M Py.loc := λ h,
  let obj := fresh (dom h) in Py.Return obj (<[obj := xs]> h).

Fixpoint main_intervals_loop (positions : list Z) (padding : Z)
    (intervals : list Py.loc) : Py.M (list Py.loc) :=
  match positions with
  | [] => mret intervals
  | pos :: rest =>
      let start := if pos - padding >=? 0 then pos - padding else 0 in
      obj ← new_list [start; pos + padding];
      main_intervals_loop rest padding (intervals ++ [obj])
  end.

Definition main_merged_intervals (positions : list Z) (padding : Z)
    : Py.M (list Py.loc) :=
  intervals ← main_intervals_loop positions padding [];
  Py.merge_overlap_intervals intervals.

End PyMain.

(** [batch_merged_intervals =
       merged_intervals[i * FILE_LIMIT: (i + 1) * FILE_LIMIT]],
    for a non-negative [FILE_LIMIT] and the [i] of [range(int(batches))]. *)
Definition batch_merged_intervals {A} (merged_intervals : list A)
    (FILE_LIMIT i : nat) : list A :=
  slice merged_intervals (i * FILE_LIMIT) ((i + 1) * FILE_LIMIT).

(** *** Writing a record *)

(** A Python string, as the list of its code points. *)
Abbreviation str := (list Z).

(** [chr(i)]; [None] stands for the [ValueError] raised outside
    [range(0x110000)]. *)
Definition chr (i : Z) : option Z :=
  if decide (0 ≤ i < 1114112) then Some i else None.

(** The position a slice bound [i] denotes in a sequence of length [len]:
    a negative bound counts from the end, and bounds are clipped to the
    sequence. *)
Definition slice_index (len : nat) (i : Z) : nat :=
  if i <? 0 then Z.to_nat (Z.max (i + Z.of_nat len) 0)
  else Z.to_nat (Z.min i (Z.of_nat len)).

(** [xs[i:j]] for arbitrary integers [i] and [j]. *)
Definition py_slice {A} (xs : list A) (i j : Z) : list A :=
  slice xs (slice_index (length xs) i) (slice_index (length xs) j).

(** What the code uses of a [pysam.AlignedSegment]. *)
Record read : Type := Read {
  query_name : str;
  query_sequence : str;
  query_qualities : list Z;
  get_aligned_pairs : list (option Z * option Z);
  is_unmapped : bool;
  is_secondary : bool;
  is_supplementary : bool
}.

(** [fastq_file] is the text written to the file so far; [write] appends.
    The result is [None] when [chr] raises.
<<
    quality_string = "".join([chr(x + 33) for x in quality])
    fastq_file.write("@{0}\n{1}\n+\n{2}\n".format(header, subsequence,
                                                  quality_string))
>> *)
Definition append_fastq (subsequence : str) (quality : list Z) (header : str)
    (fastq_file : str) : option str :=
  quality_string ← mapM (λ x, chr (x + 33)) quality;
  Some (fastq_file ++
        [64] ++ header ++ [10] ++ subsequence ++ [10; 43; 10] ++
        quality_string ++ [10]).

Definition dump_interval_fastq (interval0 : interval)
    (clean_aligned_pairs : list Z * list Z) (read0 : read)
    (fastq_file : str) : option str :=
  let sequence := query_sequence read0 in
  let quality := query_qualities read0 in
  let subsequence_indexes := get_subsequence_indexes interval0 clean_aligned_pairs in
  match subsequence_indexes with
  | Some (start, end_) =>
      let read_subsequence := py_slice sequence start (end_ + 1) in
      let quality_subsequence := py_slice quality start (end_ + 1) in
      append_fastq read_subsequence quality_subsequence
        (query_name read0) fastq_file
  | None => Some fastq_file
  end.

(** *** File names *)

(** [p.rfind(c)] for a one-character [c]: the index of its last occurrence,
    or [-1]. *)
Fixpoint rfind_from (c : Z) (p : str) (i found : Z) : Z :=
  match p with
  | [] => found
  | x :: rest => rfind_from c rest (i + 1) (if decide (x = c) then i else found)
  end.

Definition rfind (c : Z) (p : str) : Z := rfind_from c p 0 (-1).

(** [posixpath.basename]: [i = p.rfind('/') + 1; return p[i:]] *)
Definition basename (p : str) : str :=
  let i := rfind 47 p + 1 in
  py_slice p i (Z.of_nat (length p)).

(** [posixpath.splitext], that is [genericpath._splitext] with [sep = '/'],
    no [altsep] and [extsep = '.']:
<<
    sepIndex = p.rfind(sep)
    dotIndex = p.rfind(extsep)
    if dotIndex > sepIndex:
        # skip all leading dots
        filenameIndex = sepIndex + 1
        while filenameIndex < dotIndex:
            if p[filenameIndex:filenameIndex+1] != extsep:
                return p[:dotIndex], p[dotIndex:]
            filenameIndex += 1
    return p, p[:0]
>>
    The [while] loop looks for a character other than the dot in
    [p[sepIndex+1:dotIndex]]. *)
Definition splitext (p : str) : str * str :=
  let sepIndex := rfind 47 p in
  let dotIndex := rfind 46 p in
  if (dotIndex >? sepIndex) &&
     existsb (λ x, negb (bool_decide (x = 46)))
       (py_slice p (sepIndex + 1) dotIndex)
  then (py_slice p 0 dotIndex, py_slice p dotIndex (Z.of_nat (length p)))
  else (p, []).

(** [fname.endswith(suffix)] *)
Definition endswith (fname suffix : str) : bool :=
  bool_decide (suffix `suffix_of` fname).

(** The string ['.gz']. *)
Definition dot_gz : str := [46; 103; 122].

Definition get_filename_prefix (fname : str) : str :=
  if endswith fname dot_gz
  then (splitext (basename (py_slice fname 0 (-3)))).1
  else (splitext (basename fname)).1.

#[local] Instance start_le_trans : Transitive start_le.
Proof. intros a b c. unfold start_le. lia. Qed.

#[local] Instance end_le_trans : Transitive end_le.
Proof. intros a b c. unfold end_le. lia. Qed.

(** ** The cases of the test suite *)

Example test_NoOverlappingIntervals_NoChange :
  merge_overlap_intervals [Interval 2 4; Interval 6 9; Interval 11 12] =
    [Interval 2 4; Interval 6 9; Interval 11 12].
Proof. reflexivity. Qed.

Example test_TwoIntervalsEqualEndStart_NoChange :
  merge_overlap_intervals [Interval 6 9; Interval 9 12] =
    [Interval 6 9; Interval 9 12].
Proof. reflexivity. Qed.

Example test_TwoIntervalsOverlap_Merge :
  merge_overlap_intervals [Interval 6 9; Interval 8 12] = [Interval 6 12].
Proof. reflexivity. Qed.

Example test_ThreeIntervalsOverlap_Merge :
  merge_overlap_intervals [Interval 6 9; Interval 8 12; Interval 11 14] =
    [Interval 6 14].
Proof. reflexivity. Qed.

Example test_NoneAtRefStart_ChangeStartToMinusOne :
  handle_nones [(Some 1, None); (Some 2, Some 1)] = ([1; 2], [-1; 1]).
Proof. reflexivity. Qed.

Example test_AllReadNones_AllReadMinusOnes :
  handle_nones [(None, Some 1); (None, Some 2)] = ([-1; -1], [1; 2]).
Proof. reflexivity. Qed.

Example test_NoRepeatedPositions_SimpleOneToOneMapping :
  get_subsequence_indexes (Interval 2 5)
    ([30; 31; 32; 33; 34; 35], [1; 2; 3; 4; 5; 6]) = Some (31, 34).
Proof. reflexivity. Qed.

Example test_IntervalAtStartOfRef_ZeroInStartIndex :
  get_subsequence_indexes (Interval 0 2)
    ([30; 31; 32; 33; 34; 35], [-1; -1; -1; 0; 0; 1]) = Some (33, 35).
Proof. reflexivity. Qed.

Example test_AllRefPositionsBeforeStartInterval_None :
  get_subsequence_indexes (Interval 2 5)
    ([30; 31; 32; 33; 34; 35], [-1; -1; -1; 0; 0; 1]) = None.
Proof. reflexivity. Qed.

Example test_RefPositionsRepeatOnEndInterval_AllReadPositions :
  get_subsequence_indexes (Interval 2 5)
    ([30; 31; 32; 33; 34; 35], [4; 5; 5; 5; 5; 5]) = Some (30, 35).
Proof. reflexivity. Qed.

Example test_ReadPositionsRepeatAcrossInterval_ReadPostionTwice :
  get_subsequence_indexes (Interval 2 5)
    ([29; 30; 30; 30; 30; 31], [1; 2; 3; 4; 5; 6]) = Some (30, 30).
Proof. reflexivity. Qed.

(** The inputs of the docstring of [ref_interval_indexes].  For the first
    one [bisect_right] gives 9, the length of the list (the docstring
    prints 8). *)
Example ref_interval_indexes_examples :
  ref_interval_indexes (Interval 2 5) [1; 1; 2; 2; 2; 3; 4; 5; 5] = (2%nat, 9%nat) ∧
  ref_interval_indexes (Interval 2 5) [2; 3; 4] = (0%nat, 3%nat) ∧
  ref_interval_indexes (Interval 2 5) [10; 11; 12] = (0%nat, 0%nat).
Proof. split_and!; reflexivity. Qed.

(** The interval objects of the argument are updated in place: after the
    call the first object of [[[6,9],[8,12]]] reads [[6,12]]. *)
Example merge_mutates_argument :
  let h : Py.heap := {[0%nat := [6; 9]; 1%nat := [8; 12]]} in
  match Py.merge_overlap_intervals [0%nat; 1%nat] h with
  | Py.Return ls h' =>
      ls = [0%nat] ∧ read_intervals h' [0%nat; 1%nat] =
                       Some [Interval 6 12; Interval 8 12]
  | _ => False
  end.
Proof. vm_compute. done. Qed.

(** When the same object occurs twice in the argument the run differs from
    the sweep over values, which is why refinement asks for distinct
    objects: with [a = [1,2]] and [b = [1,1]], the list [[a, b, a]] comes
    back as [[a, a]] with [a] now reading [[1,1]]. *)
Example merge_aliased_argument :
  let h : Py.heap := {[0%nat := [1; 2]; 1%nat := [1; 1]]} in
  observe (Py.merge_overlap_intervals [0%nat; 1%nat; 0%nat] h) =
    Some [Interval 1 1; Interval 1 1] ∧
  merge_overlap_intervals [Interval 1 2; Interval 1 1; Interval 1 2] =
    [Interval 1 1; Interval 1 2].
Proof. vm_compute. done. Qed.

(** ** The sweep over interval values *)

Lemma merge_loop_acc intervals merged cached :
  merge_loop intervals merged cached = merged ++ merge_loop intervals [] cached.
Proof.
  revert merged cached.
  induction intervals as [|i rest IH]; intros merged cached; simpl.
  - destruct cached; by rewrite ?app_nil_r.
  - destruct cached as [c|]; [|apply IH].
    destruct (outside_interval c i).
    + rewrite IH (IH [c]). by rewrite -app_assoc.
    + apply IH.
Qed.

Lemma outside_interval_spec a b : outside_interval a b = true ↔ separated a b.
Proof. unfold outside_interval, separated. rewrite Z.geb_le. done. Qed.

Lemma sweep_cons c i rest :
  merge_loop (i :: rest) [] (Some c) =
    if outside_interval c i
    then c :: merge_loop rest [] (Some i)
    else merge_loop rest [] (Some (extend_interval c i)).
Proof. simpl. destruct (outside_interval c i); [|done]. by rewrite merge_loop_acc. Qed.

Lemma merge_cons i rest :
  merge_overlap_intervals (i :: rest) = merge_loop rest [] (Some i).
Proof. done. Qed.

(** The first interval the sweep emits starts where the accumulator does. *)
Lemma sweep_head rest c :
  ∃ c' tl, merge_loop rest [] (Some c) = c' :: tl ∧ istart c' = istart c.
Proof.
  revert c. induction rest as [|i rest IH]; intros c.
  - by exists c, [].
  - rewrite sweep_cons. destruct (outside_interval c i).
    + by eexists _, _.
    + destruct (IH (extend_interval c i)) as (c' & tl & -> & Hc'). by exists c', tl.
Qed.

Lemma adjacent_pairs_Sorted {A} (R : relation A) l :
  adjacent_pairs R l ↔ Sorted R l.
Proof.
  split.
  - induction l as [|x l IH]; intros H; constructor.
    + apply IH. intros i a b Ha Hb. by apply (H (S i)).
    + destruct l as [|y l]; constructor. by apply (H 0%nat).
  - induction 1 as [|x l Hs IH Hhd]; intros i a b Ha Hb; [done|].
    destruct i as [|i]; simpl in *.
    + simplify_eq. destruct Hhd; simplify_eq/=. done.
    + by apply (IH i).
Qed.

Lemma sweep_separated rest c : Sorted separated (merge_loop rest [] (Some c)).
Proof.
  revert c. induction rest as [|i rest IH]; intros c.
  - simpl. by repeat constructor.
  - rewrite sweep_cons. destruct (outside_interval c i) eqn:Hout; [|apply IH].
    constructor; [apply IH|].
    destruct (sweep_head rest i) as (c' & tl & -> & Hc').
    constructor. apply outside_interval_spec in Hout.
    unfold separated in *. lia.
Qed.

Lemma merge_separated X : Sorted separated (merge_overlap_intervals X).
Proof.
  destruct X as [|i rest]; [constructor|]. rewrite merge_cons. apply sweep_separated.
Qed.

(** On a list whose neighbours are all separated the sweep only flushes. *)
Lemma sweep_fixed Y c :
  Sorted separated (c :: Y) → merge_loop Y [] (Some c) = c :: Y.
Proof.
  revert c. induction Y as [|i Y IH]; intros c Hs; [done|].
  apply Sorted_inv in Hs as [Hs Hhd]. apply HdRel_inv in Hhd.
  rewrite sweep_cons. apply outside_interval_spec in Hhd as ->.
  by rewrite IH.
Qed.

Lemma merge_fixed Y :
  Sorted separated Y → merge_overlap_intervals Y = Y.
Proof. destruct Y as [|c Y]; [done|]. rewrite merge_cons. apply sweep_fixed. Qed.

(** A neighbour that starts at or after the end of its predecessor opens a
    new output interval, whatever came before and whatever follows. *)
Lemma sweep_split pre a b post cached :
  separated a b →
  merge_loop (pre ++ a :: b :: post) [] cached =
    merge_loop (pre ++ [a]) [] cached ++ merge_overlap_intervals (b :: post).
Proof.
  intros Hab. rewrite merge_cons. revert cached.
  induction pre as [|i pre IH]; intros cached.
  - destruct cached as [c|].
    + rewrite !app_nil_l !sweep_cons.
      destruct (outside_interval c a).
      * apply outside_interval_spec in Hab as ->. done.
      * assert (outside_interval (extend_interval c a) b = true) as ->; [|done].
        by apply outside_interval_spec.
    + change (merge_loop (b :: post) [] (Some a) = [a] ++ merge_loop post [] (Some b)).
      rewrite sweep_cons. by apply outside_interval_spec in Hab as ->.
  - destruct cached as [c|]; [|apply IH].
    rewrite -!app_comm_cons !sweep_cons.
    destruct (outside_interval c i); [|apply IH].
    by rewrite IH.
Qed.

(** Coverage of the sweep, for any notion of "point of an interval" that
    extension respects when the incoming interval starts inside the
    accumulator and ends no earlier than it. *)
Section coverage.
Variable inside : interval → Z → Prop.
Hypothesis inside_extend : ∀ c i p,
  istart c ≤ istart i → istart i < iend c → iend c ≤ iend i →
  inside (extend_interval c i) p ↔ inside c p ∨ inside i p.

Lemma sweep_covers rest c p :
  Forall (λ i, start_le c i ∧ end_le c i) rest →
  StronglySorted start_le rest →
  StronglySorted end_le rest →
  Exists (λ i, inside i p) (merge_loop rest [] (Some c)) ↔
  Exists (λ i, inside i p) (c :: rest).
Proof.
  revert c. induction rest as [|i rest IH]; intros c Hc Hs He; [done|].
  apply Forall_cons in Hc as [[Hci_s Hci_e] Hc].
  apply StronglySorted_inv in Hs as [Hs Hi_s].
  apply StronglySorted_inv in He as [He Hi_e].
  rewrite sweep_cons. destruct (outside_interval c i) eqn:Hout.
  - assert (Forall (λ j, start_le i j ∧ end_le i j) rest) as Hi.
    { apply Forall_and. by split. }
    rewrite Exists_cons (IH i Hi Hs He). by rewrite !Exists_cons.
  - assert (Forall (λ j, start_le (extend_interval c i) j ∧
                         end_le (extend_interval c i) j) rest) as Hci.
    { apply Forall_forall. intros j Hj.
      rewrite ->Forall_forall in Hc, Hi_e.
      destruct (Hc j Hj) as [Hcj _]. specialize (Hi_e j Hj).
      unfold start_le, end_le in *. simpl. lia. }
    assert (istart i < iend c) as Hlt.
    { apply Z.lt_nge. intros Hle.
      apply (proj2 (outside_interval_spec c i)) in Hle. congruence. }
    unfold start_le, end_le in Hci_s, Hci_e.
    rewrite (IH _ Hci Hs He) !Exists_cons inside_extend //. tauto.
Qed.

Lemma merge_covers_gen X p :
  sorted_by_start X → ends_nondecreasing X →
  Exists (λ i, inside i p) (merge_overlap_intervals X) ↔
  Exists (λ i, inside i p) X.
Proof.
  intros Hs He.
  apply (Sorted_StronglySorted _) in Hs. apply (Sorted_StronglySorted _) in He.
  destruct X as [|c rest]; [done|].
  apply StronglySorted_inv in Hs as [Hs Hc_s].
  apply StronglySorted_inv in He as [He Hc_e].
  rewrite merge_cons. apply sweep_covers; [|done..]. apply Forall_and. by split.
Qed.
End coverage.

Lemma in_interval_extend c i p :
  istart c ≤ istart i → istart i < iend c → iend c ≤ iend i →
  in_interval (extend_interval c i) p ↔ in_interval c p ∨ in_interval i p.
Proof. unfold in_interval. simpl. lia. Qed.

Lemma in_interval_closed_extend c i p :
  istart c ≤ istart i → istart i < iend c → iend c ≤ iend i →
  in_interval_closed (extend_interval c i) p ↔
  in_interval_closed c p ∨ in_interval_closed i p.
Proof. unfold in_interval_closed. simpl. lia. Qed.

(** ** The interpreter-level sweep refines the sweep over values *)

Lemma read_interval_Some h l a b :
  read_interval h l = Some (Interval a b) ↔ h !! l = Some [a; b].
Proof.
  unfold read_interval. destruct (h !! l) as [xs|]; simpl; [|done].
  destruct xs as [|x [|y [|z xs]]]; simpl; split; intros; by simplify_eq.
Qed.

Lemma read_interval_insert_ne h c xs l :
  c ≠ l → read_interval (<[c := xs]> h) l = read_interval h l.
Proof. intros Hne. unfold read_interval. by rewrite lookup_insert_ne. Qed.

Lemma read_interval_insert_eq h c a b :
  read_interval (<[c := [a; b]]> h) c = Some (Interval a b).
Proof. unfold read_interval. by rewrite lookup_insert_eq. Qed.

Lemma read_intervals_insert_notin h c xs ls :
  c ∉ ls → read_intervals (<[c := xs]> h) ls = read_intervals h ls.
Proof.
  unfold read_intervals. induction ls as [|l ls IH]; intros Hc; [done|].
  apply not_elem_of_cons in Hc as [Hne Hc]. simpl.
  rewrite read_interval_insert_ne //. by rewrite IH.
Qed.

Lemma read_intervals_snoc h ls l X x :
  read_intervals h ls = Some X → read_interval h l = Some x →
  read_intervals h (ls ++ [l]) = Some (X ++ [x]).
Proof.
  unfold read_intervals. rewrite !mapM_Some. intros HX Hx.
  apply Forall2_app; [done|]. by constructor.
Qed.

Lemma outside_interval_run h c i C I :
  read_interval h c = Some C → read_interval h i = Some I →
  Py.outside_interval c i h = Py.Return (outside_interval C I) h.
Proof.
  destruct C as [a b], I as [a' b']. rewrite !read_interval_Some. intros Hc Hi.
  unfold Py.outside_interval, mbind, Py.M_bind, Py.getitem.
  by rewrite Hi /= Hc /=.
Qed.

Lemma extend_interval_run h c i C I :
  read_interval h c = Some C → read_interval h i = Some I →
  Py.extend_interval c i h =
    Py.Return c (<[c := [istart C; iend I]]> h).
Proof.
  destruct C as [a b], I as [a' b']. rewrite !read_interval_Some. intros Hc Hi.
  unfold Py.extend_interval, mbind, Py.M_bind, Py.getitem, Py.setitem.
  by rewrite Hi /= Hc /=.
Qed.

(** With pairwise distinct interval objects, what the caller reads from the
    returned list is the sweep over the values the objects held. *)
Lemma merge_loop_refines rest : ∀ merged c h Xrest Xmerged C,
  NoDup (merged ++ c :: rest) →
  read_intervals h merged = Some Xmerged →
  read_interval h c = Some C →
  read_intervals h rest = Some Xrest →
  observe (Py.merge_loop rest merged (Some c) h) =
    Some (merge_loop Xrest Xmerged (Some C)).
Proof.
  induction rest as [|i rest IH]; intros merged c h Xrest Xmerged C Hnd Hm Hc Hr.
  - apply mapM_Some, Forall2_nil_inv_l in Hr as ->. simpl.
    by apply read_intervals_snoc.
  - apply mapM_Some, Forall2_cons_inv_l in Hr as (I & Xrest' & Hi & Hr & ->).
    apply mapM_Some in Hr.
    simpl. unfold mbind, Py.M_bind.
    rewrite (outside_interval_run _ _ _ _ _ Hc Hi).
    destruct (outside_interval C I).
    + apply IH; [|by apply read_intervals_snoc|done..].
      by rewrite -app_assoc.
    + rewrite (extend_interval_run _ _ _ _ _ Hc Hi).
      apply NoDup_app in Hnd as (Hndm & Hdisj & Hnd).
      apply NoDup_cons in Hnd as [Hc_rest Hnd].
      apply NoDup_cons in Hnd as [Hi_rest Hnd].
      apply not_elem_of_cons in Hc_rest as [Hci Hc_rest].
      assert (c ∉ merged) as Hc_m.
      { intros Hin. apply (Hdisj c Hin). by left. }
      apply IH.
      * apply NoDup_app. split_and!; [done| |by apply NoDup_cons].
        intros x Hx Hx'. apply (Hdisj x Hx).
        apply elem_of_cons in Hx' as [->|Hx']; [by left|by do 2 right].
      * by rewrite read_intervals_insert_notin.
      * apply read_interval_insert_eq.
      * by rewrite read_intervals_insert_notin.
Qed.

Lemma merge_refines h ls X :
  NoDup ls →
  read_intervals h ls = Some X →
  observe (Py.merge_overlap_intervals ls h) = Some (merge_overlap_intervals X).
Proof.
  intros Hnd HX. destruct ls as [|c rest].
  - by apply mapM_Some, Forall2_nil_inv_l in HX as ->.
  - apply mapM_Some, Forall2_cons_inv_l in HX as (C & Xrest & Hc & Hr & ->).
    apply mapM_Some in Hr.
    by apply (merge_loop_refines rest [] c h Xrest [] C).
Qed.

(** Aliased or not, sorted or not: on two-element interval objects the
    sweep runs to completion and raises nothing. *)
Lemma merge_loop_returns rest : ∀ merged c h,
  is_Some (read_interval h c) →
  Forall (λ l, is_Some (read_interval h l)) rest →
  ∃ ls' h', Py.merge_loop rest merged (Some c) h = Py.Return ls' h'.
Proof.
  induction rest as [|i rest IH]; intros merged c h [C Hc] Hr.
  - by eexists _, _.
  - apply Forall_cons in Hr as [[I Hi] Hr].
    simpl. unfold mbind, Py.M_bind.
    rewrite (outside_interval_run _ _ _ _ _ Hc Hi).
    destruct (outside_interval C I); [by apply IH|].
    rewrite (extend_interval_run _ _ _ _ _ Hc Hi).
    apply IH; [by rewrite read_interval_insert_eq|].
    eapply Forall_impl; [done|]. intros l Hl. simpl in *.
    destruct (decide (c = l)) as [<-|Hne].
    + by rewrite read_interval_insert_eq.
    + by rewrite read_interval_insert_ne.
Qed.

Lemma merge_returns h ls X :
  read_intervals h ls = Some X →
  ∃ ls' h', Py.merge_overlap_intervals ls h = Py.Return ls' h'.
Proof.
  intros HX. destruct ls as [|c rest]; [by eexists _, _|].
  apply mapM_Some, Forall2_cons_inv_l in HX as (C & Xrest & Hc & Hr & ->).
  apply (merge_loop_returns rest [] c h); [by eexists|].
  eapply Forall2_Forall_l; [exact Hr|].
  apply Forall_true. intros I l Hl. by eexists.
Qed.

(** The returned list is made of objects of the argument, in their order. *)
Lemma merge_loop_sublist rest : ∀ merged c h ls' h',
  Py.merge_loop rest merged (Some c) h = Py.Return ls' h' →
  ls' `sublist_of` merged ++ c :: rest.
Proof.
  induction rest as [|i rest IH]; intros merged c h ls' h' Hrun; simpl in Hrun.
  - by injection Hrun as <- _.
  - unfold mbind, Py.M_bind in Hrun.
    destruct (Py.outside_interval c i h) as [[|] h1| |]; [| |done..].
    + apply IH in Hrun. by rewrite -app_assoc in Hrun.
    + destruct (Py.extend_interval c i h1) as [c' h2| |] eqn:Hext; [|done..].
      assert (c' = c) as ->.
      { unfold Py.extend_interval, mbind, Py.M_bind in Hext.
        destruct (Py.getitem i 1 h1) as [v h3| |]; [|done..].
        destruct (Py.setitem c 1 v h3) as [[] h4| |]; [|done..].
        by injection Hext as <- _. }
      apply IH in Hrun. etrans; [done|].
      apply sublist_app; [done|]. by apply sublist_skip, sublist_cons.
Qed.

Lemma merge_sublist h ls ls' h' :
  Py.merge_overlap_intervals ls h = Py.Return ls' h' → ls' `sublist_of` ls.
Proof.
  destruct ls as [|c rest]; [by injection 1 as <- _|].
  apply (merge_loop_sublist rest []).
Qed.

(** Idempotence at the level of the interpreter: calling the function again
    on the list it returned, in the store it left, gives back the same
    intervals. *)
Corollary merge_twice h ls X :
  NoDup ls →
  read_intervals h ls = Some X →
  ∃ ls' h',
    Py.merge_overlap_intervals ls h = Py.Return ls' h' ∧
    read_intervals h' ls' = Some (merge_overlap_intervals X) ∧
    observe (Py.merge_overlap_intervals ls' h') = Some (merge_overlap_intervals X).
Proof.
  intros Hnd HX. destruct (merge_returns h ls X HX) as (ls' & h' & Hrun).
  pose proof (merge_refines h ls X Hnd HX) as Hobs.
  rewrite Hrun /= in Hobs. exists ls', h'. split_and!; [done..|].
  assert (NoDup ls') as Hnd'.
  { eapply sublist_NoDup; [done|]. by eapply merge_sublist. }
  rewrite (merge_refines h' ls' _ Hnd' Hobs).
  by rewrite merge_fixed; [|apply merge_separated].
Qed.

(** ** Gap filling, one component at a time *)

Lemma handle_nones_loop_fill t : ∀ refs reads pref pread,
  handle_nones_loop t refs reads pref pread =
    (reads ++ fill pread t.*1, refs ++ fill pref t.*2).
Proof.
  induction t as [|[read_pos ref_pos] t IH]; intros refs reads pref pread; simpl.
  - by rewrite !app_nil_r.
  - destruct ref_pos, read_pos; simpl; rewrite IH -!app_assoc //.
Qed.

Lemma handle_nones_fill t : handle_nones t = (fill (-1) t.*1, fill (-1) t.*2).
Proof. unfold handle_nones. by rewrite handle_nones_loop_fill. Qed.

(** The untyped loop only ever appends integers. *)
Lemma py_handle_nones_loop t : ∀ refs reads pref pread,
  Py.handle_nones_loop t (Some <$> refs) (Some <$> reads) (Some pref) (Some pread) =
    (Some <$> (handle_nones_loop t refs reads pref pread).1,
     Some <$> (handle_nones_loop t refs reads pref pread).2).
Proof.
  induction t as [|[read_pos ref_pos] t IH]; intros refs reads pref pread; [done|].
  destruct ref_pos as [ref_pos|], read_pos as [read_pos|]; simpl.
  - by rewrite -(IH (refs ++ [ref_pos]) (reads ++ [read_pos])) !fmap_app.
  - by rewrite -(IH (refs ++ [ref_pos]) (reads ++ [pread])) !fmap_app.
  - by rewrite -(IH (refs ++ [pref]) (reads ++ [read_pos])) !fmap_app.
  - by rewrite -(IH (refs ++ [pref]) (reads ++ [pread])) !fmap_app.
Qed.

Lemma py_handle_nones t :
  Py.handle_nones t = (Some <$> (handle_nones t).1, Some <$> (handle_nones t).2).
Proof. apply (py_handle_nones_loop t [] []). Qed.

Lemma fill_length prev col : length (fill prev col) = length col.
Proof.
  revert prev. induction col as [|[v|] col IH]; intros prev; simpl; by rewrite ?IH.
Qed.

Lemma default_last_cons (d v : Z) l : default d (last (v :: l)) = default v (last l).
Proof. rewrite last_cons. by destruct (last l). Qed.

Lemma fill_app prev pre post :
  fill prev (pre ++ post) =
    fill prev pre ++ fill (default prev (last (present pre))) post.
Proof.
  revert prev. induction pre as [|[v|] pre IH]; intros prev; simpl; [done|..].
  - by rewrite IH default_last_cons.
  - by rewrite IH.
Qed.

Lemma fill_absent_lookup pre post :
  fill (-1) (pre ++ None :: post) !! length pre = Some (last_seen pre).
Proof.
  rewrite fill_app lookup_app_r fill_length //.
  by rewrite Nat.sub_diag.
Qed.

Lemma fill_sorted col : ∀ prev,
  Sorted Z.le (prev :: present col) → Sorted Z.le (prev :: fill prev col).
Proof.
  induction col as [|[v|] col IH]; intros prev Hs; simpl in *; [done|..].
  - apply Sorted_inv in Hs as [Hs Hhd]. apply HdRel_inv in Hhd.
    constructor; [by apply IH|by constructor].
  - constructor; [by apply IH|by constructor].
Qed.

Lemma fill_Forall (P : Z → Prop) col : ∀ prev,
  Forall P (prev :: present col) → Forall P (fill prev col).
Proof.
  induction col as [|[v|] col IH]; intros prev HP; simpl in *; [done|..].
  - apply Forall_cons in HP as [Hprev HP]. apply Forall_cons in HP as HP'.
    destruct HP' as [Hv _]. constructor; [done|]. by apply IH.
  - apply Forall_cons in HP as HP'. destruct HP' as [Hprev _].
    constructor; [done|]. by apply IH.
Qed.

(** The sentinel only occurs in a leading run; what follows is
    non-decreasing, and non-negative where the present entries are. *)
Lemma fill_sentinels col :
  Sorted Z.le (present col) →
  ∃ (k : nat) rest,
    fill (-1) col = replicate k (-1) ++ rest ∧ Sorted Z.le rest ∧
    (Forall (Z.le 0) (present col) → Forall (Z.le 0) rest).
Proof.
  induction col as [|[v|] col IH]; intros Hs; simpl in *.
  - by exists 0%nat, [].
  - exists 0%nat, (v :: fill v col). split_and!; [done|by apply fill_sorted|].
    intros H0. apply Forall_cons in H0 as H0'. destruct H0' as [Hv _].
    constructor; [done|]. by apply fill_Forall.
  - destruct (IH Hs) as (k & rest & -> & Hrest & H0).
    by exists (S k), rest.
Qed.

Lemma fill_nondecreasing col :
  Sorted Z.le (present col) → Forall (Z.le 0) (present col) →
  Sorted Z.le (fill (-1) col).
Proof.
  intros Hs H0. apply (Sorted_inv (A:=Z) (a:=-1)), fill_sorted.
  constructor; [done|]. destruct H0; constructor. lia.
Qed.

(** ** Binary search on a non-decreasing list *)

Lemma Sorted_le_lookup (a : list Z) : ∀ (i j : nat) u v,
  Sorted Z.le a → (i ≤ j)%nat → a !! i = Some u → a !! j = Some v → u ≤ v.
Proof.
  intros i j u v Hs. apply (Sorted_StronglySorted _) in Hs.
  revert i j. induction Hs as [|w a Hs IH Hw]; intros i j Hij Hi Hj; [done|].
  destruct i as [|i], j as [|j]; simpl in *; simplify_eq; try lia.
  - rewrite ->Forall_forall in Hw. apply Hw. by eapply list_elem_of_lookup_2.
  - apply (IH i j); [lia|done..].
Qed.

Lemma mid_bounds (lo hi : nat) :
  (lo < hi)%nat → (lo ≤ (lo + hi) / 2 < hi)%nat.
Proof.
  intros Hlt. pose proof (Nat.div_mod_eq (lo + hi) 2).
  pose proof (Nat.mod_upper_bound (lo + hi) 2). lia.
Qed.

(** The subscript [a[mid]] of the two loops is always in range. *)
Lemma mid_lookup (a : list Z) (lo hi : nat) :
  (lo < hi ≤ length a)%nat → is_Some (a !! ((lo + hi) / 2)%nat).
Proof.
  intros [Hlt Hhi]. apply lookup_lt_is_Some_2.
  pose proof (mid_bounds lo hi Hlt). lia.
Qed.

Lemma bisect_left_loop_spec a x lo hi :
  Sorted Z.le a → (lo ≤ hi ≤ length a)%nat →
  (∀ (i : nat) v, a !! i = Some v → (i < lo)%nat → v < x) →
  (∀ (i : nat) v, a !! i = Some v → (hi ≤ i)%nat → x ≤ v) →
  (lo ≤ bisect_left_loop a x lo hi ≤ hi)%nat ∧
  ∀ (i : nat) v, a !! i = Some v →
    (i < bisect_left_loop a x lo hi)%nat ↔ v < x.
Proof.
  funelim (bisect_left_loop a x lo hi); intros Hs Hb Hlo Hhi.
  - split; [lia|]. intros i v Hi. split; [by apply Hlo|]. intros Hv.
    destruct (decide (i < lo)%nat); [done|]. specialize (Hhi i v Hi). lia.
  - match goal with H : _ !! _ = None |- _ => apply lookup_ge_None in H end.
    pose proof (mid_bounds lo hi). lia.
  - pose proof (mid_bounds lo hi l) as Hmid.
    match goal with H : (_ <? _) = true |- _ => apply Z.ltb_lt in H end.
    match goal with IH : Sorted _ _ → _ |- _ => destruct IH as [Hr Hiff] end;
      [done|lia| |done|split; [lia|done]].
    intros i w Hi Hlt. eapply Z.le_lt_trans; [|done].
    eapply (Sorted_le_lookup a i); [done| |done..]. lia.
  - pose proof (mid_bounds lo hi l) as Hmid.
    match goal with H : (_ <? _) = false |- _ => apply Z.ltb_ge in H end.
    match goal with IH : Sorted _ _ → _ |- _ => destruct IH as [Hr Hiff] end;
      [done|lia|done| |split; [lia|done]].
    intros i w Hi Hle. etrans; [done|].
    eapply (Sorted_le_lookup a _ i); [done| |done..]. lia.
Qed.

Lemma bisect_right_loop_spec a x lo hi :
  Sorted Z.le a → (lo ≤ hi ≤ length a)%nat →
  (∀ (i : nat) v, a !! i = Some v → (i < lo)%nat → v ≤ x) →
  (∀ (i : nat) v, a !! i = Some v → (hi ≤ i)%nat → x < v) →
  (lo ≤ bisect_right_loop a x lo hi ≤ hi)%nat ∧
  ∀ (i : nat) v, a !! i = Some v →
    (i < bisect_right_loop a x lo hi)%nat ↔ v ≤ x.
Proof.
  funelim (bisect_right_loop a x lo hi); intros Hs Hb Hlo Hhi.
  - split; [lia|]. intros i v Hi. split; [by apply Hlo|]. intros Hv.
    destruct (decide (i < lo)%nat); [done|]. specialize (Hhi i v Hi). lia.
  - match goal with H : _ !! _ = None |- _ => apply lookup_ge_None in H end.
    pose proof (mid_bounds lo hi). lia.
  - pose proof (mid_bounds lo hi l) as Hmid.
    match goal with H : (_ <? _) = true |- _ => apply Z.ltb_lt in H end.
    match goal with IH : Sorted _ _ → _ |- _ => destruct IH as [Hr Hiff] end;
      [done|lia|done| |split; [lia|done]].
    intros i w Hi Hle. eapply Z.lt_le_trans; [done|].
    eapply (Sorted_le_lookup a _ i); [done| |done..]. lia.
  - pose proof (mid_bounds lo hi l) as Hmid.
    match goal with H : (_ <? _) = false |- _ => apply Z.ltb_ge in H end.
    match goal with IH : Sorted _ _ → _ |- _ => destruct IH as [Hr Hiff] end;
      [done|lia| |done|split; [lia|done]].
    intros i w Hi Hlt. etrans; [|done].
    eapply (Sorted_le_lookup a i); [done| |done..]. lia.
Qed.

(** On a non-decreasing list [bisect_left] is the leftmost insertion point:
    exactly the entries before it are below [x]. *)
Lemma bisect_left_spec a x :
  Sorted Z.le a →
  (bisect_left a x ≤ length a)%nat ∧
  ∀ (i : nat) v, a !! i = Some v → (i < bisect_left a x)%nat ↔ v < x.
Proof.
  intros Hs. unfold bisect_left.
  destruct (bisect_left_loop_spec a x 0 (length a)) as [Hb Hiff];
    [done|lia|intros; lia| |by split; [lia|]].
  intros i v Hi Hle. apply lookup_lt_Some in Hi. lia.
Qed.

(** ... and [bisect_right] the rightmost one: exactly the entries before it
    are at most [x]. *)
Lemma bisect_right_spec a x :
  Sorted Z.le a →
  (bisect_right a x ≤ length a)%nat ∧
  ∀ (i : nat) v, a !! i = Some v → (i < bisect_right a x)%nat ↔ v ≤ x.
Proof.
  intros Hs. unfold bisect_right.
  destruct (bisect_right_loop_spec a x 0 (length a)) as [Hb Hiff];
    [done|lia|intros; lia| |by split; [lia|]].
  intros i v Hi Hle. apply lookup_lt_Some in Hi. lia.
Qed.

Lemma slice_length {A} (xs : list A) (i j : nat) :
  length (slice xs i j) = (j `min` length xs - i)%nat.
Proof. unfold slice. by rewrite length_drop length_take. Qed.

Lemma get_subsequence_indexes_unfold interval0 reads refs :
  get_subsequence_indexes interval0 (reads, refs) =
    match slice reads (bisect_left refs (istart interval0))
                      (bisect_right refs (iend interval0)) with
    | [] => None
    | first :: rest =>
        Some (if first <? 0 then 0 else first, List.last (first :: rest) first)
    end.
Proof.
  unfold get_subsequence_indexes, ref_interval_indexes.
  by destruct (slice _ _ _).
Qed.

Lemma slice_nil_iff {A} (xs : list A) (i j : nat) :
  (j ≤ length xs)%nat → slice xs i j = [] ↔ (j ≤ i)%nat.
Proof.
  intros Hj. pose proof (slice_length xs i j) as Hlen. split.
  - intros Hnil. rewrite Hnil /= in Hlen. lia.
  - intros Hji. apply nil_length_inv. lia.
Qed.

(** The index window of [ref_interval_indexes] is empty exactly when no
    reference position lies in the closed range. *)
Lemma window_empty_iff refs s e :
  Sorted Z.le refs →
  (bisect_right refs e ≤ bisect_left refs s)%nat ↔ ¬ hits refs s e.
Proof.
  intros Hs.
  destruct (bisect_left_spec refs s Hs) as [Hlo_b Hlo].
  destruct (bisect_right_spec refs e Hs) as [Hhi_b Hhi].
  unfold hits. rewrite Exists_exists. split.
  - intros Hle (v & Hv & Hse).
    apply list_elem_of_lookup in Hv as [i Hi].
    pose proof (Hlo i v Hi). pose proof (Hhi i v Hi). lia.
  - intros Hno. apply Nat.le_ngt. intros Hlt.
    destruct (lookup_lt_is_Some_2 refs (bisect_left refs s)) as [v Hv]; [lia|].
    apply Hno. exists v. split; [by eapply list_elem_of_lookup_2|].
    pose proof (Hlo _ v Hv). pose proof (Hhi _ v Hv). lia.
Qed.

(** * Properties of the specification *)

(** ** Interval merging *)

(** C1, as amended.  For every interval list [X] sorted ascending by start
    whose ends are non-decreasing as well, the points covered by
    [merge_overlap_intervals X] are exactly the points covered by [X],
    under the half-open and under the closed reading of an interval. *)
Theorem merge_covers X p :
  sorted_by_start X → ends_nondecreasing X →
  (covers (merge_overlap_intervals X) p ↔ covers X p) ∧
  (covers_closed (merge_overlap_intervals X) p ↔ covers_closed X p).
Proof.
  intros Hs He. split.
  - apply (merge_covers_gen in_interval); [apply in_interval_extend|done..].
  - apply (merge_covers_gen in_interval_closed);
      [apply in_interval_closed_extend|done..].
Qed.

Lemma merge_covers_witness :
  let X := [Interval 6 9; Interval 8 12; Interval 11 14; Interval 14 16] in
  sorted_by_start X ∧ ends_nondecreasing X ∧
  (covers (merge_overlap_intervals X) 10 ↔ covers X 10) ∧
  (covers_closed (merge_overlap_intervals X) 10 ↔ covers_closed X 10).
Proof.
  intros X.
  assert (sorted_by_start X) as Hs.
  { repeat constructor; unfold start_le; simpl; lia. }
  assert (ends_nondecreasing X) as He.
  { repeat constructor; unfold end_le; simpl; lia. }
  split; [exact Hs|]. split; [exact He|]. exact (merge_covers X 10 Hs He).
Defined.

(** C1 as stated fails: sorted by start alone, [[1,10],[2,3]] is merged
    into [[1,3]] (the end of the incoming interval replaces the end of the
    accumulator), and the point 5 is lost. *)
Lemma merge_covers_counterexample :
  let X := [Interval 1 10; Interval 2 3] in
  sorted_by_start X ∧
  merge_overlap_intervals X = [Interval 1 3] ∧
  covers X 5 ∧ ¬ covers (merge_overlap_intervals X) 5 ∧
  covers_closed X 5 ∧ ¬ covers_closed (merge_overlap_intervals X) 5.
Proof.
  intros X. split_and!.
  - repeat constructor; unfold start_le; simpl; lia.
  - reflexivity.
  - apply Exists_cons. left. unfold in_interval. simpl. lia.
  - change (merge_overlap_intervals X) with [Interval 1 3].
    rewrite /covers Exists_cons Exists_nil /in_interval /=. lia.
  - apply Exists_cons. left. unfold in_interval_closed. simpl. lia.
  - change (merge_overlap_intervals X) with [Interval 1 3].
    rewrite /covers_closed Exists_cons Exists_nil /in_interval_closed /=. lia.
Qed.

(** C4.  For every start-sorted input, every pair of adjacent intervals
    [(a, b)] of the output satisfies [b.start >= a.end]; an input interval
    whose start equals the end of the interval before it is not merged into
    it: the output is the output for the input up to the first of the two,
    followed by the output for the input from the second on; and
    [merge([[6,9],[8,12],[11,14],[14,16]]) = [[6,14],[14,16]]]. *)
Theorem merge_non_overlap_touch X pre a b post :
  sorted_by_start X →
  sorted_by_start (pre ++ a :: b :: post) →
  iend a = istart b →
  adjacent_pairs separated (merge_overlap_intervals X) ∧
  merge_overlap_intervals (pre ++ a :: b :: post) =
    merge_overlap_intervals (pre ++ [a]) ++ merge_overlap_intervals (b :: post) ∧
  merge_overlap_intervals [a; b] = [a; b] ∧
  merge_overlap_intervals
    [Interval 6 9; Interval 8 12; Interval 11 14; Interval 14 16] =
    [Interval 6 14; Interval 14 16].
Proof.
  intros _ _ Hab.
  assert (separated a b) as Hsep by (unfold separated; lia).
  split_and!.
  - apply adjacent_pairs_Sorted, merge_separated.
  - by apply sweep_split.
  - apply merge_fixed. by repeat constructor.
  - reflexivity.
Qed.

Lemma merge_non_overlap_touch_witness :
  let X := [Interval 6 9; Interval 8 12; Interval 11 14; Interval 14 16] in
  sorted_by_start X ∧
  adjacent_pairs separated (merge_overlap_intervals X) ∧
  merge_overlap_intervals X =
    merge_overlap_intervals [Interval 6 9; Interval 8 12; Interval 11 14] ++
    merge_overlap_intervals [Interval 14 16].
Proof.
  intros X.
  assert (sorted_by_start X) as Hs.
  { repeat constructor; unfold start_le; simpl; lia. }
  split; [exact Hs|].
  pose proof (merge_non_overlap_touch X [Interval 6 9; Interval 8 12]
    (Interval 11 14) (Interval 14 16) [] Hs Hs eq_refl) as (H1 & H2 & _).
  split; [exact H1|exact H2].
Defined.

(** C7.  [merge_overlap_intervals] is idempotent: for every interval list
    [X] sorted ascending by start, merging the merged list gives the merged
    list. *)
Theorem merge_idempotent X :
  sorted_by_start X →
  merge_overlap_intervals (merge_overlap_intervals X) = merge_overlap_intervals X.
Proof. intros _. apply merge_fixed, merge_separated. Qed.

Lemma merge_idempotent_witness :
  let X := [Interval 6 9; Interval 8 12; Interval 11 14; Interval 14 16] in
  sorted_by_start X ∧
  merge_overlap_intervals (merge_overlap_intervals X) = merge_overlap_intervals X.
Proof.
  intros X.
  assert (sorted_by_start X) as Hs.
  { repeat constructor; unfold start_le; simpl; lia. }
  split; [exact Hs|exact (merge_idempotent X Hs)].
Defined.

(** C8, as amended.  [merge_overlap_intervals] checks no order: on every
    list of two-element interval objects, sorted or not, it returns without
    raising; when the objects are pairwise distinct the returned list holds
    the result of the sweep over their values, in which an interval that
    starts below the end of the accumulator is merged into it by taking its
    end. *)
Theorem merge_no_order_check h ls X :
  read_intervals h ls = Some X →
  raises (Py.merge_overlap_intervals ls h) = false ∧
  (∃ ls' h', Py.merge_overlap_intervals ls h = Py.Return ls' h') ∧
  (NoDup ls →
   observe (Py.merge_overlap_intervals ls h) = Some (merge_overlap_intervals X)).
Proof.
  intros HX. destruct (merge_returns h ls X HX) as (ls' & h' & Hrun).
  split_and!.
  - by rewrite Hrun.
  - by exists ls', h'.
  - intros Hnd. by apply merge_refines.
Qed.

Lemma merge_no_order_check_witness :
  let h : Py.heap := {[0%nat := [5; 6]; 1%nat := [1; 2]]} in
  let ls := [0%nat; 1%nat] in
  let X := [Interval 5 6; Interval 1 2] in
  read_intervals h ls = Some X ∧
  raises (Py.merge_overlap_intervals ls h) = false ∧
  (∃ ls' h', Py.merge_overlap_intervals ls h = Py.Return ls' h') ∧
  (NoDup ls →
   observe (Py.merge_overlap_intervals ls h) = Some (merge_overlap_intervals X)).
Proof.
  intros h ls X.
  assert (read_intervals h ls = Some X) as HX by (vm_compute; reflexivity).
  split; [exact HX|exact (merge_no_order_check h ls X HX)].
Defined.

(** C8 as stated fails: given [[5,6],[1,2]], whose second interval starts
    before the first, the code raises nothing and returns [[5,2]]. *)
Lemma merge_fail_fast_counterexample :
  let h : Py.heap := {[0%nat := [5; 6]; 1%nat := [1; 2]]} in
  let ls := [0%nat; 1%nat] in
  read_intervals h ls = Some [Interval 5 6; Interval 1 2] ∧
  out_of_order [Interval 5 6; Interval 1 2] ∧
  raises (Py.merge_overlap_intervals ls h) = false ∧
  observe (Py.merge_overlap_intervals ls h) = Some [Interval 5 2].
Proof.
  intros h ls. split_and!.
  - vm_compute. reflexivity.
  - exists 0%nat, (Interval 5 6), (Interval 1 2). simpl. split_and!; [done..|lia].
  - vm_compute. reflexivity.
  - vm_compute. reflexivity.
Qed.

(** ** Gap filling *)

(** C5.  For every raw trace, [handle_nones] returns two sequences of
    exactly the input's length in which no entry is [None] (each is the
    image of a list of integers, the one the typed embedding returns); and
    [handle_nones([(1,1),(None,2),(2,None)]) = ([1,1,2],[1,2,2])]. *)
Theorem handle_nones_total t :
  length (Py.handle_nones t).1 = length t ∧
  length (Py.handle_nones t).2 = length t ∧
  (None ∉ (Py.handle_nones t).1) ∧
  (None ∉ (Py.handle_nones t).2) ∧
  Py.handle_nones t = (Some <$> (handle_nones t).1, Some <$> (handle_nones t).2) ∧
  length (handle_nones t).1 = length t ∧
  length (handle_nones t).2 = length t ∧
  Py.handle_nones [(Some 1, Some 1); (None, Some 2); (Some 2, None)] =
    ([Some 1; Some 1; Some 2], [Some 1; Some 2; Some 2]) ∧
  handle_nones [(Some 1, Some 1); (None, Some 2); (Some 2, None)] =
    ([1; 1; 2], [1; 2; 2]).
Proof.
  rewrite py_handle_nones handle_nones_fill /=.
  rewrite !length_fmap !fill_length !length_fmap.
  split_and!; try done.
  - intros (v & Hv & _)%list_elem_of_fmap. done.
  - intros (v & Hv & _)%list_elem_of_fmap. done.
Qed.

(** C6.  For every raw trace whose present components are non-decreasing
    in read order and non-negative, each output sequence of [handle_nones]
    is a run of the sentinel [-1] followed by a non-decreasing sequence;
    the sentinel being below every present value, each output sequence is
    then non-decreasing as a whole. *)
Theorem handle_nones_monotone t :
  Sorted Z.le (present t.*1) → Forall (Z.le 0) (present t.*1) →
  Sorted Z.le (present t.*2) → Forall (Z.le 0) (present t.*2) →
  nondecreasing_after_sentinels (handle_nones t).1 ∧
  nondecreasing_after_sentinels (handle_nones t).2 ∧
  Sorted Z.le (handle_nones t).1 ∧
  Sorted Z.le (handle_nones t).2.
Proof.
  intros Hs1 Hp1 Hs2 Hp2. rewrite handle_nones_fill /=.
  destruct (fill_sentinels t.*1 Hs1) as (k1 & rest1 & Hfill1 & Hrest1 & _).
  destruct (fill_sentinels t.*2 Hs2) as (k2 & rest2 & Hfill2 & Hrest2 & _).
  split_and!.
  - by exists k1, rest1.
  - by exists k2, rest2.
  - by apply fill_nondecreasing.
  - by apply fill_nondecreasing.
Qed.

Lemma handle_nones_monotone_witness :
  let t := [(None, Some 3); (None, Some 4); (Some 0, None); (Some 1, Some 5);
            (None, Some 6); (Some 2, Some 7)] in
  (Sorted Z.le (present t.*1) ∧ Forall (Z.le 0) (present t.*1) ∧
   Sorted Z.le (present t.*2) ∧ Forall (Z.le 0) (present t.*2)) ∧
  nondecreasing_after_sentinels (handle_nones t).1 ∧
  nondecreasing_after_sentinels (handle_nones t).2 ∧
  Sorted Z.le (handle_nones t).1 ∧
  Sorted Z.le (handle_nones t).2.
Proof.
  intros t.
  assert (Sorted Z.le (present t.*1)) as Hs1 by (repeat constructor; lia).
  assert (Forall (Z.le 0) (present t.*1)) as Hp1 by (repeat constructor; lia).
  assert (Sorted Z.le (present t.*2)) as Hs2 by (repeat constructor; lia).
  assert (Forall (Z.le 0) (present t.*2)) as Hp2 by (repeat constructor; lia).
  split; [done|exact (handle_nones_monotone t Hs1 Hp1 Hs2 Hp2)].
Defined.

(** C9.  [handle_nones] accepts a trace with a column whose two components
    are both absent: it returns, and at that column each output sequence
    holds the last value seen of its component, or [-1] if none precedes. *)
Theorem handle_nones_both_absent pre post :
  ∃ reads refs,
    handle_nones (pre ++ (None, None) :: post) = (reads, refs) ∧
    Py.handle_nones (pre ++ (None, None) :: post) = (Some <$> reads, Some <$> refs) ∧
    reads !! length pre = Some (last_seen pre.*1) ∧
    refs !! length pre = Some (last_seen pre.*2).
Proof.
  eexists _, _. split; [apply handle_nones_fill|].
  split; [by rewrite py_handle_nones handle_nones_fill|].
  rewrite !fmap_app !fmap_cons /=.
  split.
  - rewrite -(length_fmap fst pre). apply fill_absent_lookup.
  - rewrite -(length_fmap snd pre). apply fill_absent_lookup.
Qed.

(** ** Position mapping *)

(** C2.  For every interval [[s, e]] and every pair of equal-length
    sequences with non-decreasing reference positions,
    [get_subsequence_indexes] returns [None] if and only if no reference
    position lies in the closed range [[s, e]]. *)
Theorem get_subsequence_indexes_None_iff s e reads refs :
  length reads = length refs → Sorted Z.le refs →
  get_subsequence_indexes (Interval s e) (reads, refs) = None ↔ ¬ hits refs s e.
Proof.
  intros Hlen Hs. rewrite -window_empty_iff //.
  destruct (bisect_right_spec refs e Hs) as [Hhi_b _].
  rewrite -(slice_nil_iff reads); [|lia].
  rewrite get_subsequence_indexes_unfold /=.
  by destruct (slice _ _ _).
Qed.

Lemma get_subsequence_indexes_None_iff_witness :
  let reads := [30; 31; 32; 33; 34; 35] in
  let refs := [-1; -1; -1; 0; 0; 1] in
  (length reads = length refs ∧ Sorted Z.le refs) ∧
  (get_subsequence_indexes (Interval 2 5) (reads, refs) = None ↔ ¬ hits refs 2 5).
Proof.
  intros reads refs.
  assert (length reads = length refs) as Hlen by reflexivity.
  assert (Sorted Z.le refs) as Hs by (repeat constructor; lia).
  split; [done|exact (get_subsequence_indexes_None_iff 2 5 reads refs Hlen Hs)].
Defined.

(** C3.  Whenever the slice of read positions that
    [get_subsequence_indexes] resolves is non-empty and starts with a
    negative value, the returned start index is 0 (the end index is the last
    value of the slice); and
    [get_subsequence_indexes([2,5], ([-1,-1,-1,0,0,1], [1,2,3,4,5,6]))]
    is [(0, 0)]. *)
Theorem get_subsequence_indexes_clamp interval0 reads refs first rest :
  slice reads (ref_interval_indexes interval0 refs).1
              (ref_interval_indexes interval0 refs).2 = first :: rest →
  first < 0 →
  get_subsequence_indexes interval0 (reads, refs) =
    Some (0, List.last (first :: rest) first) ∧
  get_subsequence_indexes (Interval 2 5)
    ([-1; -1; -1; 0; 0; 1], [1; 2; 3; 4; 5; 6]) = Some (0, 0).
Proof.
  intros Hslice Hneg. split; [|reflexivity].
  rewrite get_subsequence_indexes_unfold. simpl in Hslice. rewrite Hslice.
  by apply Z.ltb_lt in Hneg as ->.
Qed.

Lemma get_subsequence_indexes_clamp_witness :
  let reads := [-1; -1; -1; 0; 0; 1] in
  let refs := [1; 2; 3; 4; 5; 6] in
  get_subsequence_indexes (Interval 2 5) (reads, refs) =
    Some (0, List.last [-1; -1; 0; 0] (-1)) ∧
  get_subsequence_indexes (Interval 2 5)
    ([-1; -1; -1; 0; 0; 1], [1; 2; 3; 4; 5; 6]) = Some (0, 0).
Proof.
  intros reads refs.
  apply (get_subsequence_indexes_clamp (Interval 2 5) reads refs (-1) [-1; 0; 0]).
  - reflexivity.
  - lia.
Defined.

(** C10.  Only the start index is clamped: whenever the resolved slice of
    read positions is non-empty and consists of the sentinel [-1] only,
    [get_subsequence_indexes] returns [(0, -1)], not [None]. *)
Theorem get_subsequence_indexes_all_sentinel interval0 reads refs first rest :
  slice reads (ref_interval_indexes interval0 refs).1
              (ref_interval_indexes interval0 refs).2 = first :: rest →
  Forall (λ v, v = -1) (first :: rest) →
  get_subsequence_indexes interval0 (reads, refs) = Some (0, -1).
Proof.
  intros Hslice Hall.
  rewrite get_subsequence_indexes_unfold. simpl in Hslice. rewrite Hslice.
  assert (List.last (first :: rest) first = -1) as ->.
  { assert (first = -1) as -> by (by apply Forall_cons in Hall as [-> _]).
    clear Hslice. induction rest as [|v [|v' rest] IH] using rev_ind; [done|..].
    all: rewrite app_comm_cons List.last_last.
    all: apply Forall_cons in Hall as [_ Hall].
    all: by apply Forall_app in Hall as [_ [-> _]%Forall_cons]. }
  by apply Forall_cons in Hall as [-> _].
Qed.

Lemma get_subsequence_indexes_all_sentinel_witness :
  get_subsequence_indexes (Interval 1 2) ([-1; -1; 0], [1; 2; 3]) = Some (0, -1).
Proof.
  apply (get_subsequence_indexes_all_sentinel (Interval 1 2)
           [-1; -1; 0] [1; 2; 3] (-1) [-1]).
  - reflexivity.
  - repeat constructor.
Defined.


(** * Further properties of the code *)

(** ** Interval merging *)

Lemma sweep_starts rest : ∀ c,
  istart <$> merge_loop rest [] (Some c) `sublist_of` istart c :: (istart <$> rest).
Proof.
  induction rest as [|i rest IH]; intros c; [done|].
  rewrite sweep_cons fmap_cons. destruct (outside_interval c i).
  - rewrite fmap_cons. by apply sublist_skip.
  - etrans; [apply IH|]. by apply sublist_skip, sublist_cons.
Qed.

Lemma sweep_ends rest : ∀ c,
  iend <$> merge_loop rest [] (Some c) `sublist_of` iend c :: (iend <$> rest).
Proof.
  induction rest as [|i rest IH]; intros c; [done|].
  rewrite sweep_cons fmap_cons. destruct (outside_interval c i).
  - rewrite fmap_cons. by apply sublist_skip.
  - etrans; [apply IH|]. by apply sublist_cons.
Qed.

Lemma sweep_last_end rest : ∀ c,
  last (iend <$> merge_loop rest [] (Some c)) = last (iend c :: (iend <$> rest)).
Proof.
  induction rest as [|i rest IH]; intros c; [done|].
  rewrite sweep_cons fmap_cons. destruct (outside_interval c i).
  - rewrite fmap_cons !last_cons IH. rewrite last_cons.
    by destruct (last (iend <$> rest)).
  - rewrite IH /= !last_cons. by destruct (last (iend <$> rest)).
Qed.

(** X1.  [merge_overlap_intervals] invents no endpoint and reorders
    nothing: the starts of its output are a subsequence of the starts of its
    input and the ends a subsequence of the ends; the output is no longer
    than the input, starts with the first start of the input and ends with
    the last end of the input. *)
Theorem merge_endpoints X :
  istart <$> merge_overlap_intervals X `sublist_of` istart <$> X ∧
  iend <$> merge_overlap_intervals X `sublist_of` iend <$> X ∧
  (length (merge_overlap_intervals X) ≤ length X)%nat ∧
  head (istart <$> merge_overlap_intervals X) = head (istart <$> X) ∧
  last (iend <$> merge_overlap_intervals X) = last (iend <$> X).
Proof.
  destruct X as [|c rest]; [done|]. rewrite merge_cons.
  pose proof (sweep_starts rest c) as Hst.
  split_and!.
  - done.
  - apply sweep_ends.
  - apply sublist_length in Hst. by rewrite !length_fmap /= length_fmap in Hst.
  - destruct (sweep_head rest c) as (c' & tl & -> & Hc'). simpl. by rewrite Hc'.
  - apply sweep_last_end.
Qed.

Lemma main_intervals_loop_fmap positions padding : ∀ intervals,
  main_intervals_loop positions padding intervals =
    intervals ++
    ((λ pos, Interval (Z.max 0 (pos - padding)) (pos + padding)) <$> positions).
Proof.
  induction positions as [|pos rest IH]; intros intervals; simpl.
  - by rewrite app_nil_r.
  - rewrite IH -app_assoc /=. do 3 f_equal.
    destruct (Z.geb_spec (pos - padding) 0); lia.
Qed.

Lemma main_intervals_fmap positions padding :
  main_intervals positions padding =
    (λ pos, Interval (Z.max 0 (pos - padding)) (pos + padding)) <$> positions.
Proof. apply (main_intervals_loop_fmap positions padding []). Qed.

(** X2.  For positions in non-decreasing order (they come out of [sorted])
    and any padding, the intervals [main] builds are sorted by start and
    their ends do not decrease: the two orders the sweep relies on. *)
Theorem main_intervals_sorted positions padding :
  Sorted Z.le positions →
  sorted_by_start (main_intervals positions padding) ∧
  ends_nondecreasing (main_intervals positions padding).
Proof.
  intros Hs. rewrite main_intervals_fmap. split.
  - eapply (Sorted_fmap _ Z.le start_le); [|done].
    intros x y Hxy. unfold start_le. simpl. lia.
  - eapply (Sorted_fmap _ Z.le end_le); [|done].
    intros x y Hxy. unfold end_le. simpl. lia.
Qed.

Lemma main_intervals_sorted_witness :
  Sorted Z.le [5; 8; 30] ∧
  sorted_by_start (main_intervals [5; 8; 30] 10) ∧
  ends_nondecreasing (main_intervals [5; 8; 30] 10).
Proof.
  assert (Sorted Z.le [5; 8; 30]) as Hs by (repeat constructor; lia).
  split; [exact Hs|exact (main_intervals_sorted [5; 8; 30] 10 Hs)].
Defined.

(** X3.  For positions in non-decreasing order, the merged intervals of
    [main] cover exactly the padded windows: a point lies in some merged
    interval if and only if it lies within [padding] of some position (from
    [max(0, pos - padding)] inclusive to [pos + padding] exclusive). *)
Theorem main_merged_intervals_covers positions padding p :
  Sorted Z.le positions →
  covers (main_merged_intervals positions padding) p ↔
  ∃ pos, pos ∈ positions ∧ Z.max 0 (pos - padding) ≤ p < pos + padding.
Proof.
  intros Hs. destruct (main_intervals_sorted positions padding Hs) as [Hst He].
  unfold main_merged_intervals, covers.
  rewrite (merge_covers_gen in_interval in_interval_extend _ _ Hst He).
  rewrite main_intervals_fmap Exists_fmap Exists_exists. done.
Qed.

Lemma main_merged_intervals_covers_witness :
  Sorted Z.le [5; 8; 30] ∧
  (covers (main_merged_intervals [5; 8; 30] 10) 17 ↔
   ∃ pos, pos ∈ [5; 8; 30] ∧ Z.max 0 (pos - 10) ≤ 17 < pos + 10).
Proof.
  assert (Sorted Z.le [5; 8; 30]) as Hs by (repeat constructor; lia).
  split; [exact Hs|exact (main_merged_intervals_covers [5; 8; 30] 10 17 Hs)].
Defined.

(** ** The interpreter-level sweep and the store *)

Lemma getitem_inv obj i h v h' :
  Py.getitem obj i h = Py.Return v h' →
  h' = h ∧ ∃ xs, h !! obj = Some xs ∧ xs !! i = Some v.
Proof.
  unfold Py.getitem. destruct (h !! obj) as [xs|]; [|done].
  destruct (xs !! i) as [w|] eqn:Hi; [|done].
  intros [= -> ->]. split; [done|]. by exists xs.
Qed.

Lemma outside_interval_inv c i h b h' :
  Py.outside_interval c i h = Py.Return b h' → h' = h.
Proof.
  unfold Py.outside_interval, mbind, Py.M_bind.
  destruct (Py.getitem i 0 h) as [a h1| |] eqn:H1; [|done..].
  apply getitem_inv in H1 as [-> _].
  destruct (Py.getitem c 1 h) as [a' h2| |] eqn:H2; [|done..].
  apply getitem_inv in H2 as [-> _]. by intros [= _ ->].
Qed.

Lemma extend_interval_inv c i h c' h' :
  Py.extend_interval c i h = Py.Return c' h' →
  c' = c ∧ ∃ xs v, h !! c = Some xs ∧ h' = <[c := <[1%nat := v]> xs]> h.
Proof.
  unfold Py.extend_interval, mbind, Py.M_bind.
  destruct (Py.getitem i 1 h) as [v h1| |] eqn:H1; [|done..].
  apply getitem_inv in H1 as [-> _].
  unfold Py.setitem. destruct (h !! c) as [xs|] eqn:Hc; [|done].
  case_decide; [|done]. intros [= <- <-]. split; [done|]. by exists xs, v.
Qed.

Lemma merge_loop_frame rest : ∀ merged c h ls' h',
  Py.merge_loop rest merged (Some c) h = Py.Return ls' h' →
  (∀ l, l ∉ c :: rest → h' !! l = h !! l) ∧
  (∀ l xs, h !! l = Some xs →
     ∃ xs', h' !! l = Some xs' ∧ xs' !! 0%nat = xs !! 0%nat ∧
            length xs' = length xs).
Proof.
  induction rest as [|i rest IH]; intros merged c h ls' h' Hrun; simpl in Hrun.
  - injection Hrun as _ <-. split; [done|]. intros l xs Hl. by exists xs.
  - unfold mbind, Py.M_bind in Hrun.
    destruct (Py.outside_interval c i h) as [b h1| |] eqn:Hout; [|done..].
    apply outside_interval_inv in Hout as ->. destruct b.
    + apply IH in Hrun as [Hother Hobj]. split; [|done].
      intros l Hl. apply Hother. by apply not_elem_of_cons in Hl as [_ Hl].
    + destruct (Py.extend_interval c i h) as [c' h2| |] eqn:Hext; [|done..].
      apply extend_interval_inv in Hext as (-> & ys & v & Hc & ->).
      apply IH in Hrun as [Hother Hobj]. split.
      * intros l Hl. apply not_elem_of_cons in Hl as [Hlc Hl].
        apply not_elem_of_cons in Hl as [_ Hl].
        assert (l ∉ c :: rest) as Hl' by by apply not_elem_of_cons.
        by rewrite (Hother l Hl') lookup_insert_ne.
      * intros l xs Hl. destruct (decide (c = l)) as [->|Hne].
        -- destruct (Hobj l (<[1%nat := v]> ys)) as (xs' & Hxs' & H0 & Hlen);
             [by rewrite lookup_insert_eq|].
           exists xs'. simplify_eq.
           by rewrite Hlen H0 length_insert list_lookup_insert_ne.
        -- apply Hobj. by rewrite lookup_insert_ne.
Qed.

(** X4.  A run of [merge_overlap_intervals] writes only to objects of its
    argument, and only to their ends: every other object of the store is as
    it was, and every object keeps its length and its first element (the
    start of an interval is never changed). *)
Theorem merge_frame h ls ls' h' :
  Py.merge_overlap_intervals ls h = Py.Return ls' h' →
  (∀ l, l ∉ ls → h' !! l = h !! l) ∧
  (∀ l xs, h !! l = Some xs →
     ∃ xs', h' !! l = Some xs' ∧ xs' !! 0%nat = xs !! 0%nat ∧
            length xs' = length xs).
Proof.
  destruct ls as [|c rest].
  - intros [= _ <-]. split; [done|]. intros l xs Hl. by exists xs.
  - apply (merge_loop_frame rest []).
Qed.

Lemma merge_frame_witness :
  let h : Py.heap := {[0%nat := [6; 9]; 1%nat := [8; 12]; 2%nat := [7]]} in
  let h' : Py.heap := {[0%nat := [6; 12]; 1%nat := [8; 12]; 2%nat := [7]]} in
  Py.merge_overlap_intervals [0%nat; 1%nat] h = Py.Return [0%nat] h' ∧
  (∀ l, l ∉ [0%nat; 1%nat] → h' !! l = h !! l) ∧
  (∀ l xs, h !! l = Some xs →
     ∃ xs', h' !! l = Some xs' ∧ xs' !! 0%nat = xs !! 0%nat ∧
            length xs' = length xs).
Proof.
  intros h h'.
  assert (Py.merge_overlap_intervals [0%nat; 1%nat] h = Py.Return [0%nat] h')
    as Hrun by (vm_compute; reflexivity).
  split; [exact Hrun|exact (merge_frame h [0%nat; 1%nat] [0%nat] h' Hrun)].
Defined.

(** X5.  When the interval objects of the argument are pairwise distinct
    two-element lists, the call returns, and the intervals read from the
    returned list are the result of the sweep over the values the objects
    held before the call. *)
Theorem merge_distinct_objects h ls X :
  NoDup ls →
  read_intervals h ls = Some X →
  ∃ ls' h',
    Py.merge_overlap_intervals ls h = Py.Return ls' h' ∧
    ls' `sublist_of` ls ∧
    read_intervals h' ls' = Some (merge_overlap_intervals X).
Proof.
  intros Hnd HX. destruct (merge_returns h ls X HX) as (ls' & h' & Hrun).
  exists ls', h'. split_and!; [done|by eapply merge_sublist|].
  pose proof (merge_refines h ls X Hnd HX) as Hobs. by rewrite Hrun in Hobs.
Qed.

Lemma merge_distinct_objects_witness :
  let h : Py.heap := {[0%nat := [6; 9]; 1%nat := [8; 12]; 2%nat := [14; 16]]} in
  let ls := [0%nat; 1%nat; 2%nat] in
  let X := [Interval 6 9; Interval 8 12; Interval 14 16] in
  (NoDup ls ∧ read_intervals h ls = Some X) ∧
  ∃ ls' h',
    Py.merge_overlap_intervals ls h = Py.Return ls' h' ∧
    ls' `sublist_of` ls ∧
    read_intervals h' ls' = Some (merge_overlap_intervals X).
Proof.
  intros h ls X.
  assert (NoDup ls) as Hnd by compute_done.
  assert (read_intervals h ls = Some X) as HX by (vm_compute; reflexivity).
  split; [done|exact (merge_distinct_objects h ls X Hnd HX)].
Defined.

(** X6.  Calling [merge_overlap_intervals] again on the list it returned, in
    the store the first call left, gives back the same intervals: the
    in-place updates of the first call do not disturb the second. *)
Theorem merge_again h ls X :
  NoDup ls →
  read_intervals h ls = Some X →
  ∃ ls' h' ls'' h'',
    Py.merge_overlap_intervals ls h = Py.Return ls' h' ∧
    Py.merge_overlap_intervals ls' h' = Py.Return ls'' h'' ∧
    read_intervals h'' ls'' = read_intervals h' ls' ∧
    read_intervals h' ls' = Some (merge_overlap_intervals X).
Proof.
  intros Hnd HX.
  destruct (merge_twice h ls X Hnd HX) as (ls' & h' & Hrun & Hread & Hobs).
  destruct (merge_returns h' ls' _ Hread) as (ls'' & h'' & Hrun').
  exists ls', h', ls'', h''. split_and!; [done..| |done].
  rewrite Hrun' /= in Hobs. by rewrite Hobs.
Qed.

Lemma merge_again_witness :
  let h : Py.heap := {[0%nat := [6; 9]; 1%nat := [8; 12]; 2%nat := [14; 16]]} in
  let ls := [0%nat; 1%nat; 2%nat] in
  let X := [Interval 6 9; Interval 8 12; Interval 14 16] in
  (NoDup ls ∧ read_intervals h ls = Some X) ∧
  ∃ ls' h' ls'' h'',
    Py.merge_overlap_intervals ls h = Py.Return ls' h' ∧
    Py.merge_overlap_intervals ls' h' = Py.Return ls'' h'' ∧
    read_intervals h'' ls'' = read_intervals h' ls' ∧
    read_intervals h' ls' = Some (merge_overlap_intervals X).
Proof.
  intros h ls X.
  assert (NoDup ls) as Hnd by compute_done.
  assert (read_intervals h ls = Some X) as HX by (vm_compute; reflexivity).
  split; [done|exact (merge_again h ls X Hnd HX)].
Defined.

(** ** [main]: the intervals are fresh objects *)

Lemma read_intervals_dom h ls X l :
  read_intervals h ls = Some X → l ∈ ls → is_Some (h !! l).
Proof.
  intros HX Hl. apply mapM_Some in HX.
  destruct (list_elem_of_lookup_1 _ _ Hl) as [i Hi].
  destruct (Forall2_lookup_l _ _ _ _ _ HX Hi) as (x & _ & Hx).
  unfold read_interval in Hx.
  destruct (h !! l); [by eexists|done].
Qed.

Lemma main_intervals_loop_run positions padding : ∀ ls h X,
  NoDup ls →
  read_intervals h ls = Some X →
  ∃ ls' h',
    PyMain.main_intervals_loop positions padding ls h = Py.Return ls' h' ∧
    NoDup ls' ∧
    read_intervals h' ls' = Some (main_intervals_loop positions padding X) ∧
    h ⊆ h' ∧
    (∀ l, l ∈ ls' → l ∈ ls ∨ h !! l = None).
Proof.
  induction positions as [|pos rest IH]; intros ls h X Hnd HX; simpl.
  - exists ls, h. split_and!; [done..|]. intros l Hl. by left.
  - unfold mbind, Py.M_bind, PyMain.new_list.
    set (obj := fresh (dom h)).
    set (start := if pos - padding >=? 0 then pos - padding else 0).
    assert (h !! obj = None) as Hobj.
    { apply not_elem_of_dom. apply is_fresh. }
    assert (obj ∉ ls) as Hnotin.
    { intros Hin. destruct (read_intervals_dom h ls X obj HX Hin) as [xs Hxs].
      congruence. }
    destruct (IH (ls ++ [obj]) (<[obj := [start; pos + padding]]> h)
                (X ++ [Interval start (pos + padding)]))
      as (ls' & h' & Hrun & Hnd' & Hread & Hsub & Hnew).
    { apply NoDup_app. split_and!; [done| |apply NoDup_singleton].
      intros x Hx ->%list_elem_of_singleton. done. }
    { apply read_intervals_snoc.
      - by rewrite read_intervals_insert_notin.
      - apply read_interval_insert_eq. }
    exists ls', h'. split_and!; [done..| |].
    + etrans; [|done]. by apply insert_subseteq.
    + intros l Hl. destruct (Hnew l Hl) as [Hin|Hnone].
      * apply elem_of_app in Hin as [Hin| ->%list_elem_of_singleton];
          [by left|by right].
      * right. destruct (decide (obj = l)) as [->|Hne]; [done|].
        by rewrite lookup_insert_ne in Hnone.
Qed.

(** X7.  From any store, the two steps of [main] (pad every position into
    a new list object, then merge) return, and the intervals read from the
    returned list are [merge_overlap_intervals] of the padded intervals as
    values: the objects the loop creates are distinct, so the in-place
    updates of the sweep cannot interfere.  The objects that were in the
    store before are unchanged. *)
Theorem main_merged_intervals_run positions padding h :
  ∃ ls h',
    PyMain.main_merged_intervals positions padding h = Py.Return ls h' ∧
    read_intervals h' ls = Some (main_merged_intervals positions padding) ∧
    h ⊆ h'.
Proof.
  destruct (main_intervals_loop_run positions padding [] h [])
    as (ls1 & h1 & Hrun1 & Hnd & Hread1 & Hsub & Hnew); [constructor|done|].
  destruct (merge_returns h1 ls1 _ Hread1) as (ls & h' & Hrun).
  exists ls, h'. unfold PyMain.main_merged_intervals, mbind, Py.M_bind.
  rewrite Hrun1 Hrun. split_and!; [done| |].
  - pose proof (merge_refines h1 ls1 _ Hnd Hread1) as Hobs.
    by rewrite Hrun in Hobs.
  - apply map_subseteq_spec. intros l xs Hl.
    destruct ls1 as [|c rest].
    + injection Hrun as _ <-. by eapply lookup_weaken.
    + apply (merge_loop_frame rest []) in Hrun as [Hother _].
      assert (l ∉ c :: rest) as Hnotin.
      { intros Hin. destruct (Hnew l Hin) as [Hnil|Hnone]; [|congruence].
        by apply elem_of_nil in Hnil. }
      rewrite (Hother l Hnotin). by eapply lookup_weaken.
Qed.

(** ** [main]: batches *)

Lemma slice_take_drop {A} (xs : list A) (n m : nat) :
  slice xs n (n + m) = take m (drop n xs).
Proof. unfold slice. by rewrite take_drop_commute. Qed.

(** X8.  The batches [merged_intervals[i*FILE_LIMIT:(i+1)*FILE_LIMIT]] for
    [i = 0 .. b-1], put end to end, are the first [b * FILE_LIMIT]
    intervals of [merged_intervals], each once and in order (all of them
    as soon as [b * FILE_LIMIT] reaches the length of the list); no batch
    holds more than [FILE_LIMIT] intervals. *)
Theorem batches_concat {A} (merged_intervals : list A) (FILE_LIMIT b : nat) :
  mjoin (batch_merged_intervals merged_intervals FILE_LIMIT <$> seq 0 b) =
    take (b * FILE_LIMIT) merged_intervals ∧
  Forall (λ batch, (length batch ≤ FILE_LIMIT)%nat)
    (batch_merged_intervals merged_intervals FILE_LIMIT <$> seq 0 b).
Proof.
  split.
  - induction b as [|b IH]; [done|].
    rewrite seq_S fmap_app join_app IH /= app_nil_r.
    unfold batch_merged_intervals.
    replace ((b + 1) * FILE_LIMIT)%nat with (b * FILE_LIMIT + FILE_LIMIT)%nat by lia.
    rewrite slice_take_drop take_take_drop. f_equal. lia.
  - apply Forall_fmap, Forall_forall. intros i _. simpl.
    unfold batch_merged_intervals. rewrite slice_length. lia.
Qed.

(** ** Gap filling, column by column *)

Lemma fill_lookup col : ∀ prev (i : nat) c,
  col !! i = Some c →
  fill prev col !! i =
    Some (from_option id
            (match i with
             | O => prev
             | S j => default prev (fill prev col !! j)
             end) c).
Proof.
  induction col as [|c0 col IH]; intros prev i c Hi; [done|].
  destruct i as [|j].
  - simpl in Hi. injection Hi as ->. by destruct c.
  - simpl in Hi.
    assert (fill prev (c0 :: col) = from_option id prev c0 ::
              fill (from_option id prev c0) col) as -> by (by destruct c0).
    simpl. rewrite (IH _ j c Hi). destruct j as [|k]; [done|]. simpl.
    destruct (lookup_lt_is_Some_2 (fill (from_option id prev c0) col) k)
      as [w ->]; [|done].
    rewrite fill_length. apply lookup_lt_Some in Hi. lia.
Qed.

(** X9.  Column by column, each output of [handle_nones] is the component
    itself where it is present and otherwise the output of the column
    before ([-1] in the first column): present values are never altered,
    and a gap repeats its left neighbour. *)
Theorem handle_nones_pointwise t (i : nat) read_pos ref_pos :
  t !! i = Some (read_pos, ref_pos) →
  (handle_nones t).1 !! i =
    Some (from_option id
            (match i with
             | O => -1
             | S j => default (-1) ((handle_nones t).1 !! j)
             end) read_pos) ∧
  (handle_nones t).2 !! i =
    Some (from_option id
            (match i with
             | O => -1
             | S j => default (-1) ((handle_nones t).2 !! j)
             end) ref_pos).
Proof.
  intros Hi. rewrite handle_nones_fill /=. split.
  - apply fill_lookup. by rewrite list_lookup_fmap Hi.
  - apply fill_lookup. by rewrite list_lookup_fmap Hi.
Qed.

Lemma handle_nones_pointwise_witness :
  let t := [(Some 1, Some 1); (None, Some 2); (Some 2, None)] in
  (handle_nones t).1 !! 1%nat = Some (default (-1) ((handle_nones t).1 !! 0%nat)) ∧
  (handle_nones t).2 !! 1%nat = Some 2.
Proof.
  intros t. exact (handle_nones_pointwise t 1 None (Some 2) eq_refl).
Defined.

(** X10.  On a trace without gaps [handle_nones] is the unzipping of the
    trace: the read positions and the reference positions, untouched. *)
Theorem handle_nones_no_gaps (pairs : list (Z * Z)) :
  handle_nones (prod_map Some Some <$> pairs) = (pairs.*1, pairs.*2).
Proof.
  rewrite handle_nones_fill. generalize (-1). intros prev. f_equal.
  - revert prev. induction pairs as [|[a b] pairs IH]; intros prev; [done|].
    simpl. f_equal. apply IH.
  - revert prev. induction pairs as [|[a b] pairs IH]; intros prev; [done|].
    simpl. f_equal. apply IH.
Qed.

(** ** Position mapping *)

Lemma bisect_left_loop_bounds a x lo hi :
  (lo ≤ hi)%nat → (lo ≤ bisect_left_loop a x lo hi ≤ hi)%nat.
Proof.
  funelim (bisect_left_loop a x lo hi); intros Hb; try lia.
  all: pose proof (mid_bounds lo hi l) as Hmid.
  all: match goal with IH : (_ ≤ _)%nat → _ |- _ => specialize (IH ltac:(lia)) end.
  all: lia.
Qed.

Lemma bisect_right_loop_bounds a x lo hi :
  (lo ≤ hi)%nat → (lo ≤ bisect_right_loop a x lo hi ≤ hi)%nat.
Proof.
  funelim (bisect_right_loop a x lo hi); intros Hb; try lia.
  all: pose proof (mid_bounds lo hi l) as Hmid.
  all: match goal with IH : (_ ≤ _)%nat → _ |- _ => specialize (IH ltac:(lia)) end.
  all: lia.
Qed.

(** X11.  Whatever the list, sorted or not, the two indexes of
    [ref_interval_indexes] are positions of the list: neither exceeds its
    length, so the slice taken with them never reaches outside. *)
Theorem ref_interval_indexes_bounds interval0 ref :
  ((ref_interval_indexes interval0 ref).1 ≤ length ref)%nat ∧
  ((ref_interval_indexes interval0 ref).2 ≤ length ref)%nat.
Proof.
  unfold ref_interval_indexes, bisect_left, bisect_right. simpl. split.
  - apply bisect_left_loop_bounds. lia.
  - apply bisect_right_loop_bounds. lia.
Qed.

(** X12.  On non-decreasing reference positions the two indexes of
    [ref_interval_indexes] delimit exactly the columns whose reference
    position lies in the closed interval: column [i] is inside the window
    if and only if [start <= ref[i] <= end]. *)
Theorem ref_interval_indexes_window interval0 ref (i : nat) v :
  Sorted Z.le ref →
  ref !! i = Some v →
  ((ref_interval_indexes interval0 ref).1 ≤ i < (ref_interval_indexes interval0 ref).2)%nat
  ↔ istart interval0 ≤ v ≤ iend interval0.
Proof.
  intros Hs Hi. simpl.
  destruct (bisect_left_spec ref (istart interval0) Hs) as [_ Hlo].
  destruct (bisect_right_spec ref (iend interval0) Hs) as [_ Hhi].
  pose proof (Hlo i v Hi). pose proof (Hhi i v Hi). lia.
Qed.

Lemma ref_interval_indexes_window_witness :
  let ref := [1; 1; 2; 2; 2; 3; 4; 5; 5; 7] in
  (Sorted Z.le ref ∧ ref !! 8%nat = Some 5) ∧
  (((ref_interval_indexes (Interval 2 5) ref).1 ≤ 8 <
      (ref_interval_indexes (Interval 2 5) ref).2)%nat ↔ 2 ≤ 5 ≤ 5).
Proof.
  intros ref.
  assert (Sorted Z.le ref) as Hs by (repeat constructor; lia).
  assert (ref !! 8%nat = Some 5) as Hi by reflexivity.
  split; [done|exact (ref_interval_indexes_window (Interval 2 5) ref 8 5 Hs Hi)].
Defined.

Lemma List_last_default {A} (l : list A) d : List.last l d = default d (last l).
Proof.
  induction l as [|x l IH]; [done|]. destruct l as [|y l]; [done|].
  change (List.last (x :: y :: l) d) with (List.last (y :: l) d).
  rewrite IH (last_cons x). destruct (last (y :: l)) eqn:Hlast; [done|].
  rewrite last_cons in Hlast. by destruct (last l).
Qed.

Lemma slice_lookup {A} (xs : list A) (i j k : nat) :
  slice xs i j !! k = if decide (i + k < j)%nat then xs !! (i + k)%nat else None.
Proof.
  unfold slice. rewrite lookup_drop.
  case_decide; [by rewrite lookup_take_lt|].
  apply lookup_ge_None. rewrite length_take. lia.
Qed.

(** A non-empty slice starts at index [i] and ends at the last index below
    [j] that the list has. *)
Lemma slice_cons_inv {A} (xs : list A) (i j : nat) first rest :
  slice xs i j = first :: rest →
  (i < j `min` length xs)%nat ∧ xs !! i = Some first ∧
  xs !! (j `min` length xs - 1)%nat = Some (List.last (first :: rest) first).
Proof.
  intros Hslice.
  pose proof (slice_length xs i j) as Hlen. rewrite Hslice /= in Hlen.
  split; [lia|]. split.
  - pose proof (slice_lookup xs i j 0) as H0. rewrite Hslice /= in H0.
    case_decide; [|done]. by rewrite Nat.add_0_r in H0.
  - rewrite List_last_default -Hslice last_lookup slice_length slice_lookup.
    case_decide; [|lia].
    replace (i + pred (j `min` length xs - i))%nat
      with (j `min` length xs - 1)%nat by lia.
    destruct (lookup_lt_is_Some_2 xs (j `min` length xs - 1)%nat) as [w ->];
      [lia|done].
Qed.

(** X13.  When the reference positions are non-decreasing and
    [get_subsequence_indexes] returns a pair, the pair is read off the first
    and the last column whose reference position lies in the interval: the
    end is the read position of the last such column and the start that of
    the first one, raised to 0 if negative. *)
Theorem get_subsequence_indexes_Some s e reads refs a b :
  length reads = length refs →
  Sorted Z.le refs →
  get_subsequence_indexes (Interval s e) (reads, refs) = Some (a, b) →
  ∃ (i j : nat) first,
    (i ≤ j)%nat ∧
    reads !! i = Some first ∧ a = Z.max 0 first ∧
    reads !! j = Some b ∧
    ∀ (k : nat) v, refs !! k = Some v → (i ≤ k ≤ j)%nat ↔ s ≤ v ≤ e.
Proof.
  intros Hlen Hs. rewrite get_subsequence_indexes_unfold /=.
  destruct (bisect_left_spec refs s Hs) as [_ Hlo].
  destruct (bisect_right_spec refs e Hs) as [Hhi_b Hhi].
  destruct (slice reads _ _) as [|first rest] eqn:Hslice; [done|].
  intros [= <- <-].
  apply slice_cons_inv in Hslice as (Hij & Hfirst & Hlast).
  assert (bisect_right refs e `min` length reads = bisect_right refs e)%nat
    as Hmin by lia.
  rewrite Hmin in Hij, Hlast.
  exists (bisect_left refs s), (bisect_right refs e - 1)%nat, first.
  split_and!; [lia|done| |done|].
  - destruct (Z.ltb_spec first 0); lia.
  - intros k v Hk. pose proof (Hlo k v Hk). pose proof (Hhi k v Hk). lia.
Qed.

Lemma get_subsequence_indexes_Some_witness :
  let reads := [29; 30; 30; 30; 30; 31] in
  let refs := [1; 2; 3; 4; 5; 6] in
  (length reads = length refs ∧ Sorted Z.le refs ∧
   get_subsequence_indexes (Interval 2 5) (reads, refs) = Some (30, 30)) ∧
  ∃ (i j : nat) first,
    (i ≤ j)%nat ∧
    reads !! i = Some first ∧ 30 = Z.max 0 first ∧
    reads !! j = Some 30 ∧
    ∀ (k : nat) v, refs !! k = Some v → (i ≤ k ≤ j)%nat ↔ 2 ≤ v ≤ 5.
Proof.
  intros reads refs.
  assert (length reads = length refs) as Hlen by reflexivity.
  assert (Sorted Z.le refs) as Hs by (repeat constructor; lia).
  assert (get_subsequence_indexes (Interval 2 5) (reads, refs) = Some (30, 30))
    as Hget by reflexivity.
  split; [done|exact (get_subsequence_indexes_Some 2 5 reads refs 30 30 Hlen Hs Hget)].
Defined.

(** X14.  When the read positions are non-decreasing and none is below
    the sentinel [-1] (what [handle_nones] produces), a returned pair
    [(start, end)] has [0 <= start], [-1 <= end] and [start <= end + 1]:
    the range [start .. end] is never inverted, and it is empty only as
    [(0, -1)]. *)
Theorem get_subsequence_indexes_range interval0 reads refs a b :
  Sorted Z.le reads →
  Forall (Z.le (-1)) reads →
  get_subsequence_indexes interval0 (reads, refs) = Some (a, b) →
  0 ≤ a ∧ -1 ≤ b ∧ a ≤ b + 1 ∧ (a = b + 1 → a = 0 ∧ b = -1).
Proof.
  intros Hs Hge. rewrite get_subsequence_indexes_unfold.
  destruct (slice reads _ _) as [|first rest] eqn:Hslice; [done|].
  apply slice_cons_inv in Hslice as (Hij & Hfirst & Hlast).
  set (lst := List.last (first :: rest) first) in *. clearbody lst.
  intros [= <- <-].
  assert (first ≤ lst) as Hfl.
  { eapply (Sorted_le_lookup reads); [exact Hs| |exact Hfirst|exact Hlast]. lia. }
  rewrite ->Forall_lookup in Hge.
  pose proof (Hge _ _ Hfirst) as Hf. pose proof (Hge _ _ Hlast) as Hl.
  destruct (Z.ltb_spec first 0); lia.
Qed.

Lemma get_subsequence_indexes_range_witness :
  let reads := [-1; -1; -1; 0; 0; 1] in
  let refs := [1; 2; 3; 4; 5; 6] in
  (Sorted Z.le reads ∧ Forall (Z.le (-1)) reads ∧
   get_subsequence_indexes (Interval 2 5) (reads, refs) = Some (0, 0)) ∧
  0 ≤ 0 ∧ -1 ≤ 0 ∧ 0 ≤ 0 + 1 ∧ (0 = 0 + 1 → 0 = 0 ∧ 0 = -1).
Proof.
  intros reads refs.
  assert (Sorted Z.le reads) as Hs by (repeat constructor; lia).
  assert (Forall (Z.le (-1)) reads) as Hge by (repeat constructor; lia).
  assert (get_subsequence_indexes (Interval 2 5) (reads, refs) = Some (0, 0))
    as Hget by reflexivity.
  split; [done|exact (get_subsequence_indexes_range (Interval 2 5) reads refs 0 0 Hs Hge Hget)].
Defined.

(** ** From the raw trace to the record *)

Lemma fill_elem_of prev col v : v ∈ fill prev col → v = prev ∨ v ∈ present col.
Proof.
  revert prev. induction col as [|[w|] col IH]; intros prev; simpl.
  - by intros ?%elem_of_nil.
  - intros [->|Hv]%elem_of_cons; [right; by left|].
    destruct (IH _ Hv) as [->|Hin]; right; [by left|by right].
  - intros [->|Hv]%elem_of_cons; [by left|]. by apply IH.
Qed.

Lemma present_elem_of_fill prev col v : v ∈ present col → v ∈ fill prev col.
Proof.
  revert prev. induction col as [|[w|] col IH]; intros prev; simpl.
  - done.
  - intros [->|Hv]%elem_of_cons; [by left|]. right. by apply IH.
  - intros Hv. right. by apply IH.
Qed.

Lemma hits_fill col s e :
  0 ≤ s → hits (fill (-1) col) s e ↔ hits (present col) s e.
Proof.
  intros Hs. unfold hits. rewrite !Exists_exists. split.
  - intros (v & Hv & Hse). exists v. split; [|done].
    apply fill_elem_of in Hv as [->|Hv]; [lia|done].
  - intros (v & Hv & Hse). exists v. split; [|done].
    by apply present_elem_of_fill.
Qed.

Lemma get_subsequence_indexes_None_window interval0 reads refs :
  (length refs ≤ length reads)%nat →
  get_subsequence_indexes interval0 (reads, refs) = None ↔
  (bisect_right refs (iend interval0) ≤ bisect_left refs (istart interval0))%nat.
Proof.
  intros Hlen.
  destruct (ref_interval_indexes_bounds interval0 refs) as [_ Hhi]. simpl in Hhi.
  rewrite -(slice_nil_iff reads); [|lia].
  rewrite get_subsequence_indexes_unfold. by destruct (slice _ _ _).
Qed.

(** X15.  [handle_nones] followed by [get_subsequence_indexes], as [main]
    chains them for every read: when the reference positions present in the
    raw trace are non-decreasing and non-negative and the interval starts
    at 0 or later (its start is clamped at 0 by [main]), the result is
    [None] if and only if no reference position present in the trace lies
    in the interval. *)
Theorem handle_nones_get_subsequence_indexes_None t s e :
  Sorted Z.le (present t.*2) →
  Forall (Z.le 0) (present t.*2) →
  0 ≤ s →
  get_subsequence_indexes (Interval s e) (handle_nones t) = None ↔
  ¬ hits (present t.*2) s e.
Proof.
  intros Hsorted Hpos Hs. rewrite handle_nones_fill.
  rewrite get_subsequence_indexes_None_window;
    [|by rewrite !fill_length !length_fmap].
  rewrite window_empty_iff; [|by apply fill_nondecreasing].
  by rewrite hits_fill.
Qed.

Lemma handle_nones_get_subsequence_indexes_None_witness :
  let t := [(Some 0, Some 10); (Some 1, None); (None, Some 11); (Some 2, Some 12)] in
  (Sorted Z.le (present t.*2) ∧ Forall (Z.le 0) (present t.*2) ∧ 0 ≤ 20) ∧
  (get_subsequence_indexes (Interval 20 30) (handle_nones t) = None ↔
   ¬ hits (present t.*2) 20 30).
Proof.
  intros t.
  assert (Sorted Z.le (present t.*2)) as Hsorted by (repeat constructor; lia).
  assert (Forall (Z.le 0) (present t.*2)) as Hpos by (repeat constructor; lia).
  assert (0 ≤ 20) as Hs by lia.
  split; [done|exact (handle_nones_get_subsequence_indexes_None t 20 30 Hsorted Hpos Hs)].
Defined.




Lemma append_fastq_grows subsequence quality header fastq_file out :
  append_fastq subsequence quality header fastq_file = Some out →
  (length fastq_file < length out)%nat.
Proof.
  unfold append_fastq. destruct (mapM _ quality) as [qs|]; [|done].
  simpl. intros [= <-]. rewrite length_app /=. lia.
Qed.

(** X16.  [dump_interval_fastq] leaves the file as it is exactly when the
    interval does not occur in the read: for reference positions in
    non-decreasing order, as many as read positions, the file is unchanged
    if and only if no reference position lies in the closed interval;
    otherwise either a record is appended or [chr] raises. *)
Theorem dump_interval_fastq_skips s e reads refs read0 fastq_file :
  length reads = length refs →
  Sorted Z.le refs →
  dump_interval_fastq (Interval s e) (reads, refs) read0 fastq_file =
    Some fastq_file ↔ ¬ hits refs s e.
Proof.
  intros Hlen Hs. rewrite -window_empty_iff //.
  rewrite -(get_subsequence_indexes_None_window (Interval s e) reads refs); [|lia].
  unfold dump_interval_fastq.
  destruct (get_subsequence_indexes _ _) as [[start end_]|]; [|done].
  split; [|done]. intros Happ%append_fastq_grows. lia.
Qed.

Lemma dump_interval_fastq_skips_witness :
  let reads := [30; 31; 32; 33; 34; 35] in
  let refs := [-1; -1; -1; 0; 0; 1] in
  let read0 := Read [114; 49] [65; 67; 71; 84] [30; 30; 30; 30] [] false false false in
  (length reads = length refs ∧ Sorted Z.le refs) ∧
  (dump_interval_fastq (Interval 2 5) (reads, refs) read0 [] = Some [] ↔
   ¬ hits refs 2 5).
Proof.
  intros reads refs read0.
  assert (length reads = length refs) as Hlen by reflexivity.
  assert (Sorted Z.le refs) as Hs by (repeat constructor; lia).
  split; [done|exact (dump_interval_fastq_skips 2 5 reads refs read0 [] Hlen Hs)].
Defined.










(** ** File names *)

Lemma rfind_from_notin c p : ∀ i found,
  c ∉ p → rfind_from c p i found = found.
Proof.
  induction p as [|x p IH]; intros i found Hc; [done|].
  apply not_elem_of_cons in Hc as [Hne Hc]. simpl.
  destruct (decide (x = c)) as [->|_]; [done|]. by apply IH.
Qed.

Lemma rfind_from_app c l1 l2 : ∀ i found,
  rfind_from c (l1 ++ l2) i found =
    rfind_from c l2 (i + Z.of_nat (length l1)) (rfind_from c l1 i found).
Proof.
  induction l1 as [|x l1 IH]; intros i found; simpl.
  - by rewrite Z.add_0_r.
  - rewrite IH. f_equal. lia.
Qed.

(** [rfind] finds the last occurrence. *)
Lemma rfind_last c l1 l2 : c ∉ l2 → rfind c (l1 ++ c :: l2) = Z.of_nat (length l1).
Proof.
  intros Hc. unfold rfind. rewrite rfind_from_app /=.
  destruct (decide (c = c)) as [_|Hne]; [|done]. by rewrite rfind_from_notin.
Qed.

Lemma rfind_notin c p : c ∉ p → rfind c p = -1.
Proof. apply rfind_from_notin. Qed.

(** Every string splits at the last occurrence of a character, if any. *)
Lemma last_occurrence (c : Z) p :
  c ∉ p ∨ ∃ l1 l2, p = l1 ++ c :: l2 ∧ c ∉ l2.
Proof.
  induction p as [|x p IH]; [left; by apply not_elem_of_nil|].
  destruct IH as [Hp|(l1 & l2 & -> & Hl2)].
  - destruct (decide (x = c)) as [->|Hne].
    + right. by exists [], p.
    + left. by apply not_elem_of_cons.
  - right. by exists (x :: l1), l2.
Qed.

Lemma py_slice_to_end {A} (xs : list A) (i : nat) :
  py_slice xs (Z.of_nat i) (Z.of_nat (length xs)) = drop i xs.
Proof.
  unfold py_slice, slice, slice_index.
  destruct (Z.ltb_spec (Z.of_nat i) 0); [lia|].
  destruct (Z.ltb_spec (Z.of_nat (length xs)) 0); [lia|].
  rewrite Z.min_id Nat2Z.id firstn_all.
  destruct (decide (i ≤ length xs)%nat).
  - by replace (Z.to_nat (Z.of_nat i `min` Z.of_nat (length xs))) with i by lia.
  - replace (Z.to_nat (Z.of_nat i `min` Z.of_nat (length xs)))
      with (length xs) by lia.
    rewrite !drop_ge //. lia.
Qed.

Lemma py_slice_from_start {A} (xs : list A) (j : Z) :
  0 ≤ j → py_slice xs 0 j = take (Z.to_nat j) xs.
Proof.
  intros Hj. unfold py_slice, slice, slice_index. simpl.
  destruct (Z.ltb_spec j 0); [lia|].
  replace (Z.to_nat (0 `min` Z.of_nat (length xs))) with 0%nat by lia. simpl.
  destruct (decide (Z.to_nat j ≤ length xs)%nat).
  - by replace (Z.to_nat (j `min` Z.of_nat (length xs))) with (Z.to_nat j) by lia.
  - replace (Z.to_nat (j `min` Z.of_nat (length xs))) with (length xs) by lia.
    rewrite !take_ge //. lia.
Qed.

Lemma py_slice_strip {A} (xs : list A) :
  py_slice xs 0 (-3) = take (length xs - 3) xs.
Proof.
  unfold py_slice, slice, slice_index.
  change (0 <? 0) with false. change (-3 <? 0) with true. cbv iota.
  replace (Z.to_nat (0 `min` Z.of_nat (length xs))) with 0%nat by lia.
  rewrite drop_0. f_equal. lia.
Qed.

Lemma basename_no_sep p : 47 ∉ p → basename p = p.
Proof.
  intros Hp. unfold basename. rewrite rfind_notin //.
  by rewrite (py_slice_to_end p 0).
Qed.

Lemma basename_last_sep l1 l2 : 47 ∉ l2 → basename (l1 ++ 47 :: l2) = l2.
Proof.
  intros Hl2. unfold basename. rewrite rfind_last //.
  replace (Z.of_nat (length l1) + 1) with (Z.of_nat (length l1 + 1)) by lia.
  rewrite py_slice_to_end (cons_middle 47 l1 l2) app_assoc.
  apply drop_app_length'. by rewrite length_app.
Qed.

Lemma basename_suffix p : basename p `suffix_of` p ∧ 47 ∉ basename p.
Proof.
  destruct (last_occurrence 47 p) as [Hp|(l1 & l2 & -> & Hl2)].
  - by rewrite basename_no_sep.
  - rewrite basename_last_sep //. split; [|done].
    by exists (l1 ++ [47]); rewrite -app_assoc.
Qed.

Lemma splitext_prefix p : (splitext p).1 `prefix_of` p.
Proof.
  unfold splitext. destruct (_ && _) eqn:Hcond; [|done]. simpl.
  apply andb_prop in Hcond as [Hgt _]. apply Z.gtb_lt in Hgt.
  rewrite py_slice_from_start; [apply prefix_take|].
  assert (-1 ≤ rfind 47 p); [|lia].
  destruct (last_occurrence 47 p) as [Hp|(l1 & l2 & -> & Hl2)].
  - by rewrite rfind_notin.
  - rewrite rfind_last //. lia.
Qed.

Lemma endswith_spec fname suffix :
  endswith fname suffix = true ↔ suffix `suffix_of` fname.
Proof. unfold endswith. apply bool_decide_eq_true. Qed.

(** X20.  The result of [get_filename_prefix] is a piece of the file name
    that contains no ['/']: the name is some directory part, then the
    result, then the extensions that were cut off. *)
Theorem get_filename_prefix_substring fname :
  (47 ∉ get_filename_prefix fname) ∧
  ∃ directory extensions,
    fname = directory ++ get_filename_prefix fname ++ extensions.
Proof.
  assert (∀ stripped rest, fname = stripped ++ rest →
    (47 ∉ (splitext (basename stripped)).1) ∧
    ∃ directory extensions,
      fname = directory ++ (splitext (basename stripped)).1 ++ extensions)
    as Hgen.
  { intros stripped rest ->.
    destruct (basename_suffix stripped) as [[directory Hdir] Hsep].
    destruct (splitext_prefix (basename stripped)) as [ext Hext]. split.
    - intros Hin. apply Hsep. rewrite Hext. apply elem_of_app. by left.
    - exists directory, (ext ++ rest).
      by rewrite {1}Hdir {1}Hext -!app_assoc. }
  unfold get_filename_prefix. destruct (endswith fname dot_gz).
  - apply (Hgen _ (drop (length fname - 3) fname)).
    by rewrite py_slice_strip take_drop.
  - apply (Hgen _ []). by rewrite app_nil_r.
Qed.

Lemma suffix_after_sep (s l1 l2 : list Z) x :
  x ∉ s → s `suffix_of` l1 ++ x :: l2 ↔ s `suffix_of` l2.
Proof.
  intros Hx. split.
  - intros [k Hk].
    pose proof (f_equal length Hk) as Hlens. rewrite !length_app /= in Hlens.
    destruct (decide (length s ≤ length l2)%nat) as [Hle|Hgt].
    + exists (drop (length l1 + 1) k).
      assert (length l1 + 1 ≤ length k)%nat as Hlen by lia.
      rewrite -(drop_app_le k s) // -Hk (cons_middle x l1 l2) app_assoc.
      symmetry. apply drop_app_length'. by rewrite length_app.
    + exfalso. apply Hx.
      assert ((k ++ s) !! length l1 = Some x) as Hlook.
      { rewrite -Hk. by apply list_lookup_middle. }
      rewrite lookup_app_r in Hlook; [|lia].
      by eapply list_elem_of_lookup_2.
  - intros Hs. apply suffix_app_r. by apply suffix_cons_r.
Qed.

(** X21.  The directory part of a path plays no role: for a name without
    ['/'], [get_filename_prefix(directory + '/' + name)] is
    [get_filename_prefix(name)]. *)
Theorem get_filename_prefix_directory directory name :
  47 ∉ name →
  get_filename_prefix (directory ++ 47 :: name) = get_filename_prefix name.
Proof.
  intros Hname. unfold get_filename_prefix.
  assert (endswith (directory ++ 47 :: name) dot_gz = endswith name dot_gz) as ->.
  { unfold endswith. apply bool_decide_ext, suffix_after_sep.
    unfold dot_gz. intros Hin.
    repeat (apply elem_of_cons in Hin as [Hin|Hin]; [done|]).
    by apply elem_of_nil in Hin. }
  destruct (endswith name dot_gz) eqn:Hgz.
  - apply endswith_spec, suffix_length in Hgz. simpl in Hgz.
    rewrite !py_slice_strip.
    assert (47 ∉ take (length name - 3) name) as Hstrip.
    { intros Hin. apply Hname. by eapply subseteq_take. }
    replace (Nat.sub (length (directory ++ 47 :: name)) 3)
      with (length directory + S (length name - 3))%nat
      by (rewrite length_app /=; lia).
    rewrite take_app_add /=.
    by rewrite basename_last_sep // basename_no_sep.
  - by rewrite basename_last_sep // basename_no_sep.
Qed.

Lemma get_filename_prefix_directory_witness :
  get_filename_prefix ([112; 97; 116; 104] ++ 47 :: [109; 121; 46; 103; 122]) =
    get_filename_prefix [109; 121; 46; 103; 122].
Proof.
  apply (get_filename_prefix_directory [112; 97; 116; 104] [109; 121; 46; 103; 122]).
  compute_done.
Defined.

(** X22.  A final ['.gz'] is dropped before anything else: for a name that
    does not itself end in ['.gz'], [get_filename_prefix(name + '.gz')] is
    [get_filename_prefix(name)]. *)
Theorem get_filename_prefix_gz fname :
  endswith fname dot_gz = false →
  get_filename_prefix (fname ++ dot_gz) = get_filename_prefix fname.
Proof.
  intros Hgz. unfold get_filename_prefix. rewrite Hgz.
  assert (endswith (fname ++ dot_gz) dot_gz = true) as ->.
  { apply endswith_spec. by exists fname. }
  rewrite py_slice_strip length_app /=.
  replace (length fname + 3 - 3)%nat with (length fname) by lia.
  by rewrite take_app_length.
Qed.

Lemma get_filename_prefix_gz_witness :
  get_filename_prefix ([109; 121; 46; 102; 113] ++ dot_gz) =
    get_filename_prefix [109; 121; 46; 102; 113].
Proof.
  apply (get_filename_prefix_gz [109; 121; 46; 102; 113]).
  vm_compute. reflexivity.
Defined.

(** The example of the docstring: ['path/to/my.fastq.gz'] gives ['my']. *)
Example get_filename_prefix_docstring :
  get_filename_prefix
    [112; 97; 116; 104; 47; 116; 111; 47; 109; 121; 46; 102; 97; 115; 116;
     113; 46; 103; 122] = [109; 121].
Proof. vm_compute. reflexivity. Qed.
